(** * Elastic hash table: a shallow embedding of [elastic_hash_table.c]

    The table of [elastic_hash_table.c] is an open-addressing hash table
    whose address space is split into levels of halving capacity.  This
    file embeds its data and operations as Rocq functions and proves the
    properties its specification states about them.

    Conventions of the embedding.
    - [size_t] and [uint64_t] are [Z], 64 bits wide; arithmetic that can
      wrap is written with [wrap64].  Loop counters that stay below a bound
      already in [size_t] are [nat].
    - A [char*] key is the list of bytes it points to; the string ends at
      the first NUL byte (or at the end of the list).  An owned key is kept
      without its terminator.
    - A pointer field of a slot is an [option]: [None] is [NULL].
    - An array and its accesses are a list with stdpp's lookup and insert;
      the length fields of the source ([capacity], [num_levels]) are kept
      next to the lists, and the invariant relates them.
    - [malloc] and [calloc] are taken to succeed, except that [calloc]
      refuses a request whose byte size does not fit [size_t].  A call that
      would return [-1], and a recursion that does not come back within the
      given fuel, is [None]; the table a failed rebuild leaves behind is not
      modelled.  Freed buffers simply leave the state.
    - An [int] level index is its value: a table has fewer than 64 levels,
      so the casts between [size_t] and [int] change nothing.
    - [double] is Rocq's binary64 [float].  The natural logarithm of
      [probe_budget] is not available there, so the floating-point part of
      that function is a parameter of the development, [budget_double];
      the proofs about tables assume of it that the budget of a level does
      not shrink when the level fills up, which the source has as long as
      [log] is monotone.
    - The properties of tables are stated for the tables that [eht_create]
      and successful operations produce ([reachable]); they all satisfy the
      invariant [wf]. *)

From Stdlib Require Import ZArith Lia Floats.
From Stdlib Require Import Strings.Byte Strings.String.
From stdpp Require Import base option numbers list.

Open Scope Z_scope.

Set Warnings "-clear-no-such-hyp".

(** ** Machine arithmetic *)

Definition wrap64 (x : Z) : Z := x mod 2 ^ 64.

(** [(double)n] for a [size_t] n: rounding to nearest, ties to even. *)
Definition double_of_size_t (n : Z) : float :=
  FloatOps.SF2Prim (SpecFloat.binary_normalize 53 1024 n 0 false).

(** [(size_t)x] for a [double] x: truncation towards zero.  The source only
    converts non-negative finite values; anything else is mapped to 0. *)
Definition size_t_of_double (x : float) : Z :=
  match FloatOps.Prim2SF x with
  | SpecFloat.S754_finite false m e =>
      if 0 <=? e then Z.pos m * 2 ^ e else Z.pos m / 2 ^ (- e)
  | _ => 0
  end.

(** ** Keys *)

Definition is_nul (b : byte) : bool := Byte.eqb b x00.

(** The bytes of a C string: everything before the first NUL. *)
Fixpoint c_str (p : list byte) : list byte :=
  match p with
  | [] => []
  | b :: p' => if is_nul b then [] else b :: c_str p'
  end.

#[global] Instance byte_eq_dec : EqDecision byte := Byte.byte_eq_dec.

(** [strcmp(a, b) == 0] *)
Definition strcmp_eq (a b : list byte) : bool :=
  bool_decide (c_str a = c_str b).

(** ** Hashing *)

(** The loop of [fnv1a_salted]: one xor and one multiplication per byte,
    until the terminator. *)
Fixpoint fnv1a_loop (p : list byte) (h : Z) : Z :=
  match p with
  | [] => h
  | b :: p' =>
      if is_nul b then h
      else fnv1a_loop p' (wrap64 (Z.lxor h (Z.of_N (Byte.to_N b)) * 0x100000001b3))
  end.

Definition fnv1a_salted (key : list byte) (salt : Z) : Z :=
  fnv1a_loop key (Z.lxor 0xcbf29ce484222325 salt).

Definition dual_hash (key : list byte) (level : Z) : Z * Z :=
  let salt1 := wrap64 (wrap64 (wrap64 level * 0x9E3779B97F4A7C15) + 0xA1) in
  let salt2 := wrap64 (wrap64 (wrap64 level * 0x517CC1B727220A95) + 0xB2) in
  (fnv1a_salted key salt1, Z.lor (fnv1a_salted key salt2) 1).

Definition probe_idx (h1 h2 attempt capacity : Z) : Z :=
  wrap64 (h1 + wrap64 (attempt * h2)) mod capacity.

(** ** Data *)

Inductive SlotState := SLOT_EMPTY | SLOT_OCCUPIED | SLOT_TOMBSTONE.

#[global] Instance SlotState_eq_dec : EqDecision SlotState.
Proof. solve_decision. Defined.

Record Slot := {
  key : option (list byte);
  value : option (list byte);
  value_len : Z;
  state : SlotState
}.

Record SubArray := {
  level : Z;
  capacity : Z;
  count : Z;
  tombstones : Z;
  slots : list Slot
}.

(** The table.  Its live count is [t_count] here, the field [count] of
    [struct ElasticHashTable]; the name [count] is the level's. *)
Record ElasticHashTable := {
  total_capacity : Z;
  t_count : Z;
  num_levels : Z;
  min_level_size : Z;
  max_load : float;
  tombstone_ratio : float;
  levels : list SubArray
}.

Record FindResult := { level_idx : Z; slot_idx : Z }.

(** What rebuild carries from the old levels to the new ones: the key
    pointer, the value pointer and the value length of a slot. *)
Definition Entry : Type := option (list byte) * option (list byte) * Z.

(** A slot as [calloc] leaves it. *)
Definition zero_slot : Slot :=
  {| key := None; value := None; value_len := 0; state := SLOT_EMPTY |}.

(** [sizeof(Slot)] on an LP64 target: two pointers, a [size_t], an [int]
    and its padding. *)
Definition sizeof_Slot : Z := 32.

Definition set_slots (sub : SubArray) (sl : list Slot) : SubArray :=
  {| level := level sub; capacity := capacity sub; count := count sub;
     tombstones := tombstones sub; slots := sl |}.

Definition set_levels (t : ElasticHashTable) (n : Z) (c : Z) (ls : list SubArray)
  : ElasticHashTable :=
  {| total_capacity := total_capacity t; t_count := c; num_levels := n;
     min_level_size := min_level_size t; max_load := max_load t;
     tombstone_ratio := tombstone_ratio t; levels := ls |}.

Definition set_total_capacity (t : ElasticHashTable) (c : Z) : ElasticHashTable :=
  {| total_capacity := c; t_count := t_count t; num_levels := num_levels t;
     min_level_size := min_level_size t; max_load := max_load t;
     tombstone_ratio := tombstone_ratio t; levels := levels t |}.

(** ** Level construction *)

Definition subarray_init (lvl capacity : Z) : option SubArray :=
  if capacity * sizeof_Slot <? 2 ^ 64 then
    Some {| level := lvl; capacity := capacity; count := 0; tombstones := 0;
            slots := replicate (Z.to_nat capacity) zero_slot |}
  else None.

(** The counting loop of [build_levels]:
    [while (tmp > min_level_size * 2) { tmp -= tmp / 2; ++n_levels; }].
    It does not end when the bound is 0 and [tmp] reaches 1. *)
Fixpoint count_levels (fuel : nat) (tmp bound n_levels : Z) : option Z :=
  if bound <? tmp then
    match fuel with
    | O => None
    | S fuel' => count_levels fuel' (tmp - tmp / 2) bound (n_levels + 1)
    end
  else Some n_levels.

(** The loop that initialises levels [i .. n_levels - 2] by halving, and the
    last level, which takes the remainder; [n] counts the halving levels
    still to build. *)
Fixpoint init_levels (n : nat) (i remaining : Z) : option (list SubArray) :=
  match n with
  | O => sa ← subarray_init i remaining; Some [sa]
  | S n' =>
      let sz := remaining / 2 in
      sa ← subarray_init i sz;
      rest ← init_levels n' (i + 1) (remaining - sz);
      Some (sa :: rest)
  end.

Definition build_levels (t : ElasticHashTable) (capacity : Z)
  : option ElasticHashTable :=
  n ← count_levels (Z.to_nat capacity) capacity (wrap64 (min_level_size t * 2)) 0;
  let n_levels := n + 1 in
  ls ← init_levels (Z.to_nat (n_levels - 1)) 0 capacity;
  Some (set_levels t n_levels (t_count t) ls).

Definition eht_create (total_capacity : Z) : option ElasticHashTable :=
  let total_capacity := if total_capacity <? 64 then 64 else total_capacity in
  build_levels
    {| total_capacity := total_capacity; t_count := 0; num_levels := 0;
       min_level_size := 16; max_load := 0x1.ccccccccccccdp-1%float;
       tombstone_ratio := 0x1.3333333333333p-3%float; levels := [] |}
    total_capacity.

(** The floating-point part of [probe_budget].  For [used] and [capacity],
    with [eps = 1.0 - (double)used / (double)capacity]:
    [None] when [eps <= 0.0], and otherwise [Some b] for
    [b = (size_t)(3.0 + 3.0 * l * l)] where [l = log(1.0 / eps)]. *)
Class FloatBudget := budget_double : Z → Z → option Z.

Section Table.

Context {FB : FloatBudget}.

Definition budget_of (used capacity : Z) : Z :=
  match budget_double used capacity with
  | None => capacity
  | Some n =>
      let b := wrap64 (n + 1) in
      if b <? capacity then b else capacity
  end.

Definition probe_budget (sub : SubArray) : Z :=
  budget_of (wrap64 (count sub + tombstones sub)) (capacity sub).

(** ** Find *)

(** [s->state == SLOT_OCCUPIED && strcmp(s->key, key) == 0] *)
Definition slot_matches (s : Slot) (k : list byte) : bool :=
  bool_decide (state s = SLOT_OCCUPIED) &&
  match key s with
  | Some k' => strcmp_eq k' k
  | None => false
  end.

(** The probe loop of [find_key] in one level, from attempt [a], with [n]
    attempts left: the slot index of a match, or [None] when the loop ends
    at an empty slot or with the budget used up. *)
Fixpoint find_probe (sub : SubArray) (k : list byte) (h1 h2 : Z)
    (n : nat) (a : Z) : option Z :=
  match n with
  | O => None
  | S n' =>
      let idx := probe_idx h1 h2 a (capacity sub) in
      match slots sub !! Z.to_nat idx with
      | None => None
      | Some s =>
          if slot_matches s k then Some idx
          else if bool_decide (state s = SLOT_EMPTY) then None
          else find_probe sub k h1 h2 n' (a + 1)
      end
  end.

Definition not_found : FindResult := {| level_idx := -1; slot_idx := 0 |}.

(** The level loop of [find_key], from level [li], with [n] levels left. *)
Fixpoint find_from (t : ElasticHashTable) (k : list byte) (n li : nat)
  : FindResult :=
  match n with
  | O => not_found
  | S n' =>
      match levels t !! li with
      | None => not_found
      | Some sub =>
          if count sub =? 0 then find_from t k n' (S li)
          else
            let budget := probe_budget sub in
            let '(h1, h2) := dual_hash k (level sub) in
            match find_probe sub k h1 h2 (Z.to_nat budget) 0 with
            | Some idx => {| level_idx := Z.of_nat li; slot_idx := idx |}
            | None => find_from t k n' (S li)
            end
      end
  end.

Definition find_key (t : ElasticHashTable) (k : list byte) : FindResult :=
  find_from t k (Z.to_nat (num_levels t)) 0.

(** ** Insertion with ownership transfer, and rebuild *)

Definition occupied (k : list byte) (v : option (list byte)) (len : Z) : Slot :=
  {| key := Some k; value := v; value_len := len; state := SLOT_OCCUPIED |}.

(** The probe loop of [insert_owned] in one level: the level with the entry
    installed in the first empty or tombstone slot, or [None] when the
    budget is used up. *)
Fixpoint place_probe (sub : SubArray) (k : list byte) (v : option (list byte))
    (len : Z) (h1 h2 : Z) (n : nat) (a : Z) : option SubArray :=
  match n with
  | O => None
  | S n' =>
      let idx := probe_idx h1 h2 a (capacity sub) in
      match slots sub !! Z.to_nat idx with
      | None => None
      | Some s =>
          if bool_decide (state s = SLOT_EMPTY ∨ state s = SLOT_TOMBSTONE) then
            Some {| level := level sub; capacity := capacity sub;
                    count := wrap64 (count sub + 1);
                    tombstones :=
                      if bool_decide (state s = SLOT_TOMBSTONE)
                      then wrap64 (tombstones sub - 1) else tombstones sub;
                    slots := <[Z.to_nat idx := occupied k v len]> (slots sub) |}
          else place_probe sub k v len h1 h2 n' (a + 1)
      end
  end.

(** The level loop of [insert_owned]. *)
Fixpoint place_from (t : ElasticHashTable) (k : list byte)
    (v : option (list byte)) (len : Z) (n li : nat) : option ElasticHashTable :=
  match n with
  | O => None
  | S n' =>
      match levels t !! li with
      | None => None
      | Some sub =>
          let budget := probe_budget sub in
          let '(h1, h2) := dual_hash k (level sub) in
          match place_probe sub k v len h1 h2 (Z.to_nat budget) 0 with
          | Some sub' =>
              Some (set_levels t (num_levels t) (wrap64 (t_count t + 1))
                      (<[li := sub']> (levels t)))
          | None => place_from t k v len n' (S li)
          end
      end
  end.

Definition place (t : ElasticHashTable) (k : list byte)
    (v : option (list byte)) (len : Z) : option ElasticHashTable :=
  place_from t k v len (Z.to_nat (num_levels t)) 0.

(** Step 1 of [rebuild]: the key, value and length of every occupied slot,
    level by level and slot by slot. *)
Definition slot_entry (s : Slot) : Entry := (key s, value s, value_len s).

Definition level_entries (sub : SubArray) : list Entry :=
  slot_entry <$>
    filter (λ s, state s = SLOT_OCCUPIED) (take (Z.to_nat (capacity sub)) (slots sub)).

Definition live_entries (t : ElasticHashTable) : list Entry :=
  take (Z.to_nat (num_levels t)) (levels t) ≫= level_entries.

(** Step 4 of [rebuild]: the collected entries go back in, in order. *)
Fixpoint reinsert
    (ins : ElasticHashTable → list byte → option (list byte) → Z →
           option ElasticHashTable)
    (es : list Entry) (t : ElasticHashTable) : option ElasticHashTable :=
  match es with
  | [] => Some t
  | (ko, v, len) :: es' =>
      match ko with
      | None => None
      | Some k => t' ← ins t k v len; reinsert ins es' t'
      end
  end.

(** [rebuild], with the insertion it calls back as an argument. *)
Definition rebuild_with
    (ins : ElasticHashTable → list byte → option (list byte) → Z →
           option ElasticHashTable)
    (t : ElasticHashTable) (new_capacity : Z) : option ElasticHashTable :=
  let es := live_entries t in
  let t0 := set_total_capacity (set_levels t 0 0 []) new_capacity in
  t1 ← build_levels t0 new_capacity;
  reinsert ins es t1.

(** [insert_owned]: place the entry, or grow to twice the capacity and try
    again.  [fuel] bounds the depth of the recursion through [rebuild]. *)
Fixpoint insert_owned (fuel : nat) (t : ElasticHashTable) (k : list byte)
    (v : option (list byte)) (len : Z) : option ElasticHashTable :=
  match fuel with
  | O => None
  | S fuel' =>
      match place t k v len with
      | Some t' => Some t'
      | None =>
          t' ← rebuild_with (insert_owned fuel') t (wrap64 (total_capacity t * 2));
          insert_owned fuel' t' k v len
      end
  end.

Definition rebuild (fuel : nat) (t : ElasticHashTable) (new_capacity : Z)
  : option ElasticHashTable :=
  rebuild_with (insert_owned fuel) t new_capacity.

(** ** Public operations *)

Definition load_limit (t : ElasticHashTable) : Z :=
  size_t_of_double (PrimFloat.mul (double_of_size_t (total_capacity t)) (max_load t)).

Definition tombstone_limit (t : ElasticHashTable) : Z :=
  size_t_of_double
    (PrimFloat.mul (double_of_size_t (total_capacity t)) (tombstone_ratio t)).

Definition total_tombstones (t : ElasticHashTable) : Z :=
  foldl (λ total_ts sub, wrap64 (total_ts + tombstones sub)) 0
    (take (Z.to_nat (num_levels t)) (levels t)).

(** The slot [t->levels[li].slots[idx]] rewritten by [f]. *)
Definition update_slot (f : Slot → Slot) (li idx : Z) (ls : list SubArray)
  : list SubArray :=
  alter (λ sub, set_slots sub (alter f (Z.to_nat idx) (slots sub)))
    (Z.to_nat li) ls.

Definition eht_insert (fuel : nat) (t : ElasticHashTable) (k : list byte)
    (v : list byte) (len : Z) : option ElasticHashTable :=
  let fr := find_key t k in
  if 0 <=? level_idx fr then
    let new_val := take (Z.to_nat len) v in
    Some (set_levels t (num_levels t) (t_count t)
            (update_slot
               (λ s, {| key := key s; value := Some new_val; value_len := len;
                        state := state s |})
               (level_idx fr) (slot_idx fr) (levels t)))
  else
    t1 ← (if load_limit t <=? t_count t
          then rebuild fuel t (wrap64 (total_capacity t * 2)) else Some t);
    t2 ← (if tombstone_limit t1 <=? total_tombstones t1
          then rebuild fuel t1 (total_capacity t1) else Some t1);
    insert_owned fuel t2 (c_str k) (Some (take (Z.to_nat len) v)) len.

(** [eht_get]: [None] for the return value 0, and for 1 the two
    out-parameters. *)
Definition eht_get (t : ElasticHashTable) (k : list byte)
  : option (option (list byte) * Z) :=
  let fr := find_key t k in
  if level_idx fr <? 0 then None
  else
    sub ← levels t !! Z.to_nat (level_idx fr);
    s ← slots sub !! Z.to_nat (slot_idx fr);
    Some (value s, value_len s).

(** [slot_free_data] followed by the tombstone mark. *)
Definition tombstone_slot (s : Slot) : Slot :=
  {| key := None; value := None; value_len := 0; state := SLOT_TOMBSTONE |}.

Definition eht_delete (t : ElasticHashTable) (k : list byte)
  : ElasticHashTable * Z :=
  let fr := find_key t k in
  if level_idx fr <? 0 then (t, 0)
  else
    (set_levels t (num_levels t) (wrap64 (t_count t - 1))
       (alter
          (λ sub,
             {| level := level sub; capacity := capacity sub;
                count := wrap64 (count sub - 1);
                tombstones := wrap64 (tombstones sub + 1);
                slots := alter tombstone_slot (Z.to_nat (slot_idx fr)) (slots sub) |})
          (Z.to_nat (level_idx fr)) (levels t)),
     1).

Definition eht_contains (t : ElasticHashTable) (k : list byte) : Z :=
  if 0 <=? level_idx (find_key t k) then 1 else 0.

Definition eht_len (t : ElasticHashTable) : Z := t_count t.
Definition eht_capacity (t : ElasticHashTable) : Z := total_capacity t.
Definition eht_num_levels (t : ElasticHashTable) : Z := num_levels t.

(** ** Reachable tables *)

(** The tables that [eht_create] followed by successful operations can
    produce.  [eht_get] and [eht_contains] return values only and leave the
    table as it is.  [rebuild] is internal to the source; it is stepped here
    with any positive target capacity. *)
Inductive reachable : ElasticHashTable → Prop :=
  | reach_create n t :
      0 ≤ n < 2 ^ 64 → eht_create n = Some t → reachable t
  | reach_insert fuel t k v len t' :
      reachable t → 0 ≤ len < 2 ^ 64 →
      eht_insert fuel t k v len = Some t' → reachable t'
  | reach_delete t k :
      reachable t → reachable (eht_delete t k).1
  | reach_rebuild fuel t new_capacity t' :
      reachable t → 0 < new_capacity < 2 ^ 64 →
      rebuild fuel t new_capacity = Some t' → reachable t'.

(** ** How a call ends *)











(** ** A refused allocation in [rebuild] *)

(** The table that [rebuild] leaves, and returns -1 on, when the three
    [malloc]s of step 1 succeed and the [malloc] of the level array in
    [build_levels] returns NULL: steps 1 and 2 have run, so that [levels]
    is NULL and [num_levels] and [count] are 0, and step 3 has set
    [total_capacity] (lines 279-320 and 147-148). *)
Definition rebuild_refused (t : ElasticHashTable) (new_capacity : Z)
  : ElasticHashTable :=
  set_total_capacity (set_levels t 0 0 []) new_capacity.

(** [eht_insert] on the path on which that happens in the rebuild of the
    load guard: the key is not found, the guard fires, [rebuild] returns -1
    and [eht_insert] returns -1 at once (lines 338-355).  [None] when the
    call does not come to that rebuild. *)
Definition eht_insert_refused (t : ElasticHashTable) (k : list byte)
  : option ElasticHashTable :=
  let fr := find_key t k in
  if 0 <=? level_idx fr then None
  else if load_limit t <=? t_count t
       then Some (rebuild_refused t (wrap64 (total_capacity t * 2)))
       else None.

(** ** The invariant of the table *)

Definition n_state (st : SlotState) (sl : list Slot) : Z :=
  Z.of_nat (length (filter (λ s, state s = st) sl)).

(** The slot position that attempt [a] of key [k] probes in level [sub]. *)
Definition probe_pos (sub : SubArray) (k : list byte) (a : nat) : nat :=
  Z.to_nat (probe_idx (dual_hash k (level sub)).1 (dual_hash k (level sub)).2
              (Z.of_nat a) (capacity sub)).

(** Position [idx] is on the probe path of [k] within the budget of the
    level, and no empty slot comes before it on that path. *)
Definition chain (sub : SubArray) (k : list byte) (idx : nat) : Prop :=
  ∃ a : nat,
    Z.of_nat a < probe_budget sub ∧ probe_pos sub k a = idx ∧
    ∀ a' : nat, (a' < a)%nat →
      ∃ s, slots sub !! probe_pos sub k a' = Some s ∧ state s ≠ SLOT_EMPTY.

Record wf_level (sub : SubArray) : Prop := {
  wl_cap_pos : 0 < capacity sub;
  wl_cap_alloc : capacity sub * sizeof_Slot < 2 ^ 64;
  wl_length : Z.of_nat (length (slots sub)) = capacity sub;
  wl_count : count sub = n_state SLOT_OCCUPIED (slots sub);
  wl_tombstones : tombstones sub = n_state SLOT_TOMBSTONE (slots sub);
  wl_chain : ∀ idx s,
    slots sub !! idx = Some s → state s = SLOT_OCCUPIED →
    ∃ k, key s = Some k ∧ c_str k = k ∧ chain sub k idx
}.

(** The capacities that the halving of [remaining] leaves, as a relation:
    every level but the last takes half of what remains while more than
    [bound] remains, and the last level takes the rest. *)
Fixpoint layout_ok (bound remaining : Z) (caps : list Z) : Prop :=
  match caps with
  | [] => False
  | c :: caps' =>
      match caps' with
      | [] => remaining ≤ bound ∧ c = remaining
      | _ :: _ =>
          bound < remaining ∧ c = remaining / 2 ∧
          layout_ok bound (remaining - c) caps'
      end
  end.

Definition sum_of (f : SubArray → Z) (ls : list SubArray) : Z :=
  foldr (λ sub acc, f sub + acc) 0 ls.

Record wf (t : ElasticHashTable) : Prop := {
  wf_num_levels : num_levels t = Z.of_nat (length (levels t));
  wf_levels : Forall wf_level (levels t);
  wf_count : t_count t = sum_of count (levels t);
  wf_min : 1 ≤ min_level_size t < 2 ^ 63;
  wf_cap : 0 < total_capacity t < 2 ^ 60;
  wf_layout : layout_ok (2 * min_level_size t) (total_capacity t)
                (capacity <$> levels t);
  wf_keys : NoDup (fst ∘ fst <$> live_entries t)
}.

(** Some occupied slot of the table holds a key equal to [k]. *)
Definition stores_key (t : ElasticHashTable) (k : list byte) : bool :=
  existsb (λ sub, existsb (λ s, slot_matches s k) (slots sub)) (levels t).

(** ** The find procedure as the specification words it *)






(** ** Auxiliary notions of the proofs *)

(** Exactly [j] halvings happen before what remains is within the bound. *)
Fixpoint halvings (bound tmp : Z) (j : nat) : Prop :=
  match j with
  | O => tmp ≤ bound
  | S j' => bound < tmp ∧ halvings bound (tmp - tmp / 2) j'
  end.

(** A level as [subarray_init] leaves it. *)
Definition fresh_level (sub : SubArray) : Prop :=
  capacity sub * sizeof_Slot < 2 ^ 64 ∧
  count sub = 0 ∧ tombstones sub = 0 ∧
  slots sub = replicate (Z.to_nat (capacity sub)) zero_slot.

(** The entries of the occupied slots of a slot array. *)
Definition entries_of (sl : list Slot) : list Entry :=
  slot_entry <$> filter (λ s, state s = SLOT_OCCUPIED) sl.

(** The tunables of the table are unchanged. *)
Definition same_config (t t' : ElasticHashTable) : Prop :=
  min_level_size t' = min_level_size t ∧ max_load t' = max_load t ∧
  tombstone_ratio t' = tombstone_ratio t.

(** No live entry of the table has key [k]. *)
Definition fresh_key (t : ElasticHashTable) (k : list byte) : Prop :=
  ∀ v len, (Some k, v, len) ∉ live_entries t.

(** An entry with a key, which holds no NUL byte. *)
Definition normal_entry (e : Entry) : Prop := ∃ k, e.1.1 = Some k ∧ c_str k = k.

(** What an insertion of an absent key does to a table that satisfies the
    invariant, when it succeeds. *)
Definition ins_ok
    (ins : ElasticHashTable → list byte → option (list byte) → Z →
           option ElasticHashTable) : Prop :=
  ∀ t k v len t',
    wf t → c_str k = k → fresh_key t k → ins t k v len = Some t' →
    wf t' ∧ live_entries t' ≡ₚ (Some k, v, len) :: live_entries t ∧
    total_capacity t ≤ total_capacity t' ∧ same_config t t'.

(** The slot after the update in place of [eht_insert]. *)
Definition new_value (v : list byte) (len : Z) (s : Slot) : Slot :=
  {| key := key s; value := Some (take (Z.to_nat len) v); value_len := len;
     state := state s |}.

(** The level and the slot that [eht_delete] leaves where it found the key. *)
Definition deleted_level (sub : SubArray) (idx : nat) : SubArray :=
  {| level := level sub; capacity := capacity sub;
     count := count sub - 1; tombstones := tombstones sub + 1;
     slots :=
       <[idx := {| key := None; value := None; value_len := 0;
                   state := SLOT_TOMBSTONE |}]> (slots sub) |}.

(** The entry that [eht_insert] stores for a key and a value buffer. *)
Definition stored_entry (q v : list byte) (len : Z) : Entry :=
  (Some (c_str q), Some (take (Z.to_nat len) v), len).

(** What the second of two inserts of a key leaves untouched: every count
    and capacity of the table and of its levels, and the state and the key
    of every slot. *)
Definition level_counters (sub : SubArray) :=
  (level sub, capacity sub, count sub, tombstones sub,
   (λ s, (state s, key s)) <$> slots sub).

Definition counters (t : ElasticHashTable) :=
  (total_capacity t, t_count t, num_levels t, level_counters <$> levels t).

End Table.

(** ** The dual hash as the specification words it *)

Definition spec_key_bytes (key : list byte) : list byte :=
  take (default (length key) (fst <$> list_find (λ b, b = x00) key)) key.

Definition spec_fnv1a (bytes : list byte) (salt : Z) : Z :=
  fold_left (λ h b, (Z.lxor h (Z.of_N (Byte.to_N b)) * 0x100000001b3) mod 2 ^ 64)
    bytes (Z.lxor 0xcbf29ce484222325 salt).

Definition spec_dual_hash (key : list byte) (L : Z) : Z * Z :=
  let bytes := spec_key_bytes key in
  (spec_fnv1a bytes ((L * 0x9E3779B97F4A7C15 + 0xA1) mod 2 ^ 64),
   Z.lor (spec_fnv1a bytes ((L * 0x517CC1B727220A95 + 0xB2) mod 2 ^ 64)) 1).

(** ** The level layout as the specification words it *)

(** While [remaining > 2 * min_level_size], emit [remaining / 2] and
    subtract it; then emit the remainder.  [fuel] bounds the iterations. *)
Fixpoint spec_layout_loop (fuel : nat) (min_level_size remaining : Z)
  : option (list Z) :=
  if 2 * min_level_size <? remaining then
    match fuel with
    | O => None
    | S fuel' =>
        rest ← spec_layout_loop fuel' min_level_size (remaining - remaining / 2);
        Some (remaining / 2 :: rest)
    end
  else Some [remaining].

Definition spec_layout (min_level_size C : Z) : option (list Z) :=
  spec_layout_loop (Z.to_nat C) min_level_size C.

(** ** Metadata and iteration *)

(** [EHTLevelInfo] of the header; its fields [level], [capacity], [count]
    and [tombstones] carry the prefix [li_] here. *)
Record EHTLevelInfo := {
  li_level : Z;
  li_capacity : Z;
  li_count : Z;
  li_tombstones : Z
}.

Definition level_info (sub : SubArray) : EHTLevelInfo :=
  {| li_level := level sub; li_capacity := capacity sub;
     li_count := count sub; li_tombstones := tombstones sub |}.

(** The loop of [eht_level_stats]: [out[i]] is written for [i] from the
    given index, [n] times.  A write outside [out] has no meaning in the
    source and none here. *)
Fixpoint level_stats_loop (t : ElasticHashTable) (out : list EHTLevelInfo)
    (n i : nat) : list EHTLevelInfo :=
  match n with
  | O => out
  | S n' =>
      match levels t !! i with
      | None => out
      | Some sub => level_stats_loop t (<[i := level_info sub]> out) n' (S i)
      end
  end.

Definition eht_level_stats (t : ElasticHashTable) (out : list EHTLevelInfo)
    (max_levels : Z) : list EHTLevelInfo :=
  let n := if num_levels t <? max_levels then num_levels t else max_levels in
  level_stats_loop t out (Z.to_nat n) 0.

(** [struct EHTIterator] without its table pointer: the table is the
    argument of [eht_iter_next]. *)
Record EHTIterator := { it_level_idx : Z; it_slot_idx : Z }.

Definition eht_iter_create (t : ElasticHashTable) : EHTIterator :=
  {| it_level_idx := 0; it_slot_idx := 0 |}.

(** The inner loop of [eht_iter_next], with [n] slots left in the level:
    the next occupied slot from [slot_idx] and the index after it. *)
Fixpoint iter_scan (sub : SubArray) (n : nat) (slot_idx : Z) : option (Slot * Z) :=
  match n with
  | O => None
  | S n' =>
      match slots sub !! Z.to_nat slot_idx with
      | None => None
      | Some s =>
          if bool_decide (state s = SLOT_OCCUPIED) then Some (s, slot_idx + 1)
          else iter_scan sub n' (slot_idx + 1)
      end
  end.

(** The outer loop of [eht_iter_next], with [n] levels left: the entry it
    yields, or [None] for the return value 0, and the iterator it leaves. *)
Fixpoint iter_from (t : ElasticHashTable) (n : nat) (level_idx slot_idx : Z)
  : option Entry * EHTIterator :=
  match n with
  | O => (None, {| it_level_idx := level_idx; it_slot_idx := slot_idx |})
  | S n' =>
      match levels t !! Z.to_nat level_idx with
      | None => (None, {| it_level_idx := level_idx; it_slot_idx := slot_idx |})
      | Some sub =>
          match iter_scan sub (Z.to_nat (capacity sub - slot_idx)) slot_idx with
          | Some (s, slot_idx') =>
              (Some (slot_entry s),
               {| it_level_idx := level_idx; it_slot_idx := slot_idx' |})
          | None => iter_from t n' (level_idx + 1) 0
          end
      end
  end.

Definition eht_iter_next (t : ElasticHashTable) (it : EHTIterator)
  : option Entry * EHTIterator :=
  iter_from t (Z.to_nat (num_levels t - it_level_idx it))
    (it_level_idx it) (it_slot_idx it).

(** What [n] calls of [eht_iter_next] yield, up to the first that
    returns 0. *)
Fixpoint iter_collect (t : ElasticHashTable) (n : nat) (it : EHTIterator)
  : list Entry :=
  match n with
  | O => []
  | S n' =>
      match eht_iter_next t it with
      | (Some e, it') => e :: iter_collect t n' it'
      | (None, _) => []
      end
  end.

(** The entries that lie at and after the position of an iterator. *)
Definition remaining (t : ElasticHashTable) (it : EHTIterator) : list Entry :=
  match levels t !! Z.to_nat (it_level_idx it) with
  | Some sub =>
      entries_of (drop (Z.to_nat (it_slot_idx it)) (slots sub)) ++
      (drop (S (Z.to_nat (it_level_idx it))) (levels t)
         ≫= (λ sub, entries_of (slots sub)))
  | None => []
  end.

(** An iterator that [eht_iter_create] and [eht_iter_next] can leave on
    the table. *)
Definition valid_iterator (t : ElasticHashTable) (it : EHTIterator) : Prop :=
  0 ≤ it_level_idx it ∧ 0 ≤ it_slot_idx it ∧
  ∀ sub, levels t !! Z.to_nat (it_level_idx it) = Some sub →
         it_slot_idx it ≤ capacity sub.

(** A slot carries a key exactly when it is occupied, and then a value
    too unless the length of the value is 0; a slot that is not occupied
    carries nothing. *)
Definition slot_shape (s : Slot) : Prop :=
  if decide (state s = SLOT_OCCUPIED)
  then is_Some (key s) ∧ (0 < value_len s → is_Some (value s))
  else key s = None ∧ value s = None ∧ value_len s = 0.

Definition slots_shaped (t : ElasticHashTable) : Prop :=
  Forall (λ sub, Forall slot_shape (slots sub)) (levels t).

(** Level [i] of the table carries the index [i]. *)
Definition levels_indexed (t : ElasticHashTable) : Prop :=
  ∀ i sub, levels t !! i = Some sub → level sub = Z.of_nat i.

Definition no_tombstones (t : ElasticHashTable) : Prop :=
  Forall (λ sub, tombstones sub = 0) (levels t).

(** An insertion keeps the property [I] of tables, for entries with the
    property [E]; and an entry of a table has the property [E]. *)
Definition entry_ok (E : list byte → option (list byte) → Z → Prop) (e : Entry)
  : Prop :=
  ∀ k, e.1.1 = Some k → E k e.1.2 e.2.

Definition ins_keeps `{FloatBudget} (I : ElasticHashTable → Prop)
    (E : list byte → option (list byte) → Z → Prop)
    (ins : ElasticHashTable → list byte → option (list byte) → Z →
           option ElasticHashTable) : Prop :=
  ∀ t k v len t',
    wf t → c_str k = k → fresh_key t k → I t → E k v len →
    ins t k v len = Some t' → I t'.

(** ** Example inputs *)

(** A budget for the examples: the formula of [probe_budget] tabulated.
    Step [j] of the list is the fill [used / capacity], in millionths, from
    which [3.0 * l * l] reaches [j], that is [1 - exp(-sqrt(j / 3))]; the
    budget before the clamp is 4 plus the number of steps reached. *)
Definition budget_steps : list Z :=
  [438617; 558023; 632121; 684849; 725003; 756884; 782928; 804656; 823079;
   838902; 852637; 864665; 875278; 884704; 893123; 900680; 907494; 913663;
   919268; 924377; 929048; 933331; 937268; 940895; 944243; 947342; 950213;
   952880; 955361; 957671; 959827; 961841; 963725; 965490; 967145; 968699;
   970160; 971534; 972828; 974048; 975199; 976286; 977313; 978285; 979204;
   980075; 980901; 981685; 982429; 983135; 983806; 984445; 985052; 985631;
   986182; 986707; 987208; 987686; 988142; 988578; 988994].

Definition tabulated_budget : FloatBudget :=
  λ used capacity,
    if capacity <=? used then None
    else
      Some (3 + Z.of_nat
                  (length (filter (λ p, p * capacity ≤ used * 1000000) budget_steps))).

(** The keys ["key00"], ["key01"], ... *)
Definition example_key (n : nat) : list byte :=
  list_byte_of_string "key" ++
  [default x00 (Byte.of_nat (48 + n / 10));
   default x00 (Byte.of_nat (48 + n mod 10))].

Definition key_alpha : list byte := list_byte_of_string "alpha".
Definition value_1 : list byte := list_byte_of_string "1".
Definition value_22 : list byte := list_byte_of_string "22".
Definition value_333 : list byte := list_byte_of_string "333".

(** One [eht_insert] per key, all with the same value. *)
Fixpoint insert_keys `{FloatBudget} (fuel : nat) (ks : list (list byte))
    (v : list byte) (t : ElasticHashTable) : option ElasticHashTable :=
  match ks with
  | [] => Some t
  | k :: ks' =>
      t' ← eht_insert fuel t k v (Z.of_nat (length v));
      insert_keys fuel ks' v t'
  end.

(** A handle with nothing behind it, for the [None] of an example that
    does not occur. *)
Definition no_table : ElasticHashTable :=
  {| total_capacity := 0; t_count := 0; num_levels := 0; min_level_size := 0;
     max_load := 0%float; tombstone_ratio := 0%float; levels := [] |}.

Definition table64 : ElasticHashTable :=
  Eval vm_compute in default no_table (eht_create 64).

Definition table65 : ElasticHashTable :=
  Eval vm_compute in default no_table (eht_create 65).

(** [table64] after [eht_insert] of ["alpha"] with ["1"], then with ["22"],
    then with ["333"]. *)
Definition table_alpha : ElasticHashTable :=
  Eval vm_compute in
    default no_table (eht_insert (FB := tabulated_budget) 1 table64 key_alpha value_1 1).

Definition table_alpha_22 : ElasticHashTable :=
  Eval vm_compute in
    default no_table
      (eht_insert (FB := tabulated_budget) 1 table_alpha key_alpha value_22 2).

Definition table_alpha_333 : ElasticHashTable :=
  Eval vm_compute in
    default no_table
      (eht_insert (FB := tabulated_budget) 1 table_alpha_22 key_alpha value_333 3).

(** [table64] with the 57 keys ["key00"] to ["key56"], which is its load
    limit, and then with ["key57"]. *)
Definition table57 : ElasticHashTable :=
  Eval vm_compute in
    default no_table
      (insert_keys (H := tabulated_budget) 1 (example_key <$> seq 0 57) value_1 table64).

Definition table58 : ElasticHashTable :=
  Eval vm_compute in
    default no_table
      (eht_insert (FB := tabulated_budget) 1 table57 (example_key 57) value_1 1).

(** [table57] after an [eht_insert] of ["key57"] in which the level array
    of the rebuild is refused. *)
Definition table57_refused : ElasticHashTable :=
  Eval vm_compute in
    default no_table
      (eht_insert_refused (FB := tabulated_budget) table57 (example_key 57)).

(** ["alpha"] followed by a NUL byte and more bytes. *)
Definition key_alpha_tail : list byte := key_alpha ++ [x00; x78; x79].

(** One [eht_delete] per key. *)
Definition delete_keys `{FloatBudget} (ks : list (list byte))
    (t : ElasticHashTable) : ElasticHashTable :=
  foldl (λ t k, (eht_delete t k).1) t ks.

(** [table64] with the ten keys ["key00"] to ["key09"]; then without the
    first nine of them, which leaves nine tombstones, its tombstone limit;
    that table rebuilt at its capacity, and that table after the insert of
    ["key20"]. *)
Definition table10 : ElasticHashTable :=
  Eval vm_compute in
    default no_table
      (insert_keys (H := tabulated_budget) 1 (example_key <$> seq 0 10) value_1 table64).

Definition table_tombstones : ElasticHashTable :=
  Eval vm_compute in
    delete_keys (H := tabulated_budget) (example_key <$> seq 0 9) table10.

Definition table_rebuilt : ElasticHashTable :=
  Eval vm_compute in
    default no_table (rebuild (FB := tabulated_budget) 1 table_tombstones 64).

Definition table_compacted : ElasticHashTable :=
  Eval vm_compute in
    default no_table
      (eht_insert (FB := tabulated_budget) 1 table_tombstones (example_key 20) value_1 1).

(** A record of the caller's buffer that [eht_level_stats] has not
    written. *)
Definition no_info : EHTLevelInfo :=
  {| li_level := -1; li_capacity := -1; li_count := -1; li_tombstones := -1 |}.

(** * Proofs *)

Arguments dual_hash : simpl never.
Arguments probe_idx : simpl never.
Arguments wrap64 : simpl never.
Arguments probe_budget : simpl never.

(** ** Machine arithmetic and hashing *)

Lemma wrap64_small x : 0 ≤ x < 2 ^ 64 → wrap64 x = x.
Proof. intros; unfold wrap64; by apply Z.mod_small. Qed.

Lemma wrap64_range x : 0 ≤ wrap64 x < 2 ^ 64.
Proof. unfold wrap64; apply Z.mod_pos_bound; lia. Qed.

Lemma lxor_range n a b :
  0 ≤ n → 0 ≤ a < 2 ^ n → 0 ≤ b < 2 ^ n → 0 ≤ Z.lxor a b < 2 ^ n.
Proof.
  intros Hn Ha Hb.
  assert (Hnn : 0 ≤ Z.lxor a b) by (apply Z.lxor_nonneg; lia).
  split; [done|].
  destruct (decide (Z.lxor a b = 0)) as [->|Hne]; [apply Z.pow_pos_nonneg; lia|].
  assert (0 < n).
  { destruct (decide (n = 0)) as [->|]; [|lia].
    assert (a = 0 ∧ b = 0) as [-> ->] by lia. done. }
  apply Z.log2_lt_pow2; [lia|].
  eapply Z.le_lt_trans; [apply Z.log2_lxor; lia|].
  apply Z.max_lub_lt.
  - destruct (decide (a = 0)) as [->|?]; [simpl; lia|apply Z.log2_lt_pow2; lia].
  - destruct (decide (b = 0)) as [->|?]; [simpl; lia|apply Z.log2_lt_pow2; lia].
Qed.

Lemma lor_range n a b :
  0 ≤ n → 0 ≤ a < 2 ^ n → 0 ≤ b < 2 ^ n → 0 ≤ Z.lor a b < 2 ^ n.
Proof.
  intros Hn Ha Hb.
  assert (Hnn : 0 ≤ Z.lor a b) by (apply Z.lor_nonneg; lia).
  split; [done|].
  destruct (decide (Z.lor a b = 0)) as [->|Hne]; [apply Z.pow_pos_nonneg; lia|].
  assert (0 < n).
  { destruct (decide (n = 0)) as [->|]; [|lia].
    assert (a = 0 ∧ b = 0) as [-> ->] by lia. done. }
  apply Z.log2_lt_pow2; [lia|].
  rewrite Z.log2_lor by lia.
  apply Z.max_lub_lt.
  - destruct (decide (a = 0)) as [->|?]; [simpl; lia|apply Z.log2_lt_pow2; lia].
  - destruct (decide (b = 0)) as [->|?]; [simpl; lia|apply Z.log2_lt_pow2; lia].
Qed.

Lemma is_nul_true b : is_nul b = true ↔ b = x00.
Proof.
  unfold is_nul; split; [apply Byte.byte_dec_bl|intros ->; done].
Qed.

Lemma c_str_idemp p : c_str (c_str p) = c_str p.
Proof.
  induction p as [|b p IH]; simpl; [done|].
  destruct (is_nul b) eqn:E; simpl; [done|]. by rewrite E, IH.
Qed.

Lemma fnv1a_loop_c_str p h : fnv1a_loop (c_str p) h = fnv1a_loop p h.
Proof.
  revert h; induction p as [|b p IH]; intros h; simpl; [done|].
  destruct (is_nul b) eqn:E; simpl; [done|]. by rewrite E, IH.
Qed.

Lemma dual_hash_c_str k l : dual_hash (c_str k) l = dual_hash k l.
Proof. unfold dual_hash, fnv1a_salted. by rewrite !fnv1a_loop_c_str. Qed.

Lemma spec_key_bytes_c_str p : spec_key_bytes p = c_str p.
Proof.
  unfold spec_key_bytes.
  induction p as [|b p IH]; [done|].
  cbn [list_find c_str].
  destruct (is_nul b) eqn:E.
  - apply is_nul_true in E as ->. by rewrite decide_True.
  - rewrite decide_False by (intros ->; done).
    cbn [length]. rewrite <- IH.
    destruct (list_find (λ b0 : byte, b0 = "000"%byte) p) as [[i y]|]; done.
Qed.

Lemma fnv1a_loop_fold p h :
  fnv1a_loop (c_str p) h =
  fold_left (λ h b, (Z.lxor h (Z.of_N (Byte.to_N b)) * 0x100000001b3) mod 2 ^ 64)
    (c_str p) h.
Proof.
  revert h; induction p as [|b p IH]; intros h; simpl; [done|].
  destruct (is_nul b) eqn:E; simpl; [done|]. rewrite E. apply IH.
Qed.

Lemma fnv1a_loop_range p h : 0 ≤ h < 2 ^ 64 → 0 ≤ fnv1a_loop p h < 2 ^ 64.
Proof.
  revert h; induction p as [|b p IH]; intros h Hh; simpl; [done|].
  destruct (is_nul b); [done|]. apply IH, wrap64_range.
Qed.

Lemma salt_wrap L c a :
  wrap64 (wrap64 (wrap64 L * c) + a) = (L * c + a) mod 2 ^ 64.
Proof.
  unfold wrap64.
  rewrite Z.mul_mod_idemp_l by lia.
  by rewrite Z.add_mod_idemp_l by lia.
Qed.

(** C9: [dual_hash] is the salted FNV-1a pair of the specification for
    every key and level index: [h1] hashes the bytes before the first NUL
    from the offset basis xored with [L * 0x9E3779B97F4A7C15 + 0xA1], [h2]
    does the same with [L * 0x517CC1B727220A95 + 0xB2] and has its lowest
    bit set, all in arithmetic modulo 2^64.  Both results are 64-bit values,
    [h2] is odd, and they depend on nothing but the key bytes and the
    level. *)
Theorem dual_hash_spec (key : list byte) (L : Z) :
  dual_hash key L = spec_dual_hash key L ∧
  Z.odd (dual_hash key L).2 = true ∧
  0 ≤ (dual_hash key L).1 < 2 ^ 64 ∧
  0 ≤ (dual_hash key L).2 < 2 ^ 64 ∧
  ∀ key', c_str key' = c_str key → dual_hash key' L = dual_hash key L.
Proof.
  split; [|split; [|split; [|split]]].
  - unfold dual_hash, spec_dual_hash, fnv1a_salted, spec_fnv1a.
    rewrite !salt_wrap, spec_key_bytes_c_str.
    by rewrite <- !fnv1a_loop_fold, !fnv1a_loop_c_str.
  - unfold dual_hash; cbn [snd].
    rewrite <- Z.bit0_odd, Z.lor_spec. by rewrite orb_true_r.
  - unfold dual_hash, fnv1a_salted; cbn [fst].
    apply fnv1a_loop_range, (lxor_range 64); [lia|lia|apply wrap64_range].
  - unfold dual_hash, fnv1a_salted; cbn [snd].
    apply (lor_range 64); [lia| |lia].
    apply fnv1a_loop_range, (lxor_range 64); [lia|lia|apply wrap64_range].
  - intros key' Heq.
    by rewrite <- (dual_hash_c_str key'), Heq, dual_hash_c_str.
Qed.

(** ** Level layout *)

Lemma count_levels_halvings fuel tmp bound n0 n1 :
  count_levels fuel tmp bound n0 = Some n1 →
  ∃ j : nat, n1 = n0 + Z.of_nat j ∧ halvings bound tmp j.
Proof.
  revert tmp n0; induction fuel as [|fuel IH]; intros tmp n0; simpl.
  - destruct (Z.ltb_spec bound tmp); [done|]. intros [= <-]. exists O; simpl. lia.
  - destruct (Z.ltb_spec bound tmp).
    + intros (j & -> & Hj)%IH. exists (S j); simpl. split; [lia|done].
    + intros [= <-]. exists O; simpl. lia.
Qed.

Lemma count_levels_total fuel tmp bound n0 :
  1 ≤ bound → (Z.to_nat tmp ≤ fuel)%nat →
  is_Some (count_levels fuel tmp bound n0).
Proof.
  intros Hb. revert tmp n0; induction fuel as [|fuel IH]; intros tmp n0 Hf; simpl.
  - destruct (Z.ltb_spec bound tmp); [lia|done].
  - destruct (Z.ltb_spec bound tmp); [|done]. apply IH.
    assert (1 ≤ tmp / 2) by (apply Z.div_le_lower_bound; lia). lia.
Qed.

Lemma subarray_init_Some i c sa :
  subarray_init i c = Some sa →
  c * sizeof_Slot < 2 ^ 64 ∧
  sa = {| level := i; capacity := c; count := 0; tombstones := 0;
          slots := replicate (Z.to_nat c) zero_slot |}.
Proof.
  unfold subarray_init. destruct (Z.ltb_spec (c * sizeof_Slot) (2 ^ 64)); [|done].
  by intros [= <-].
Qed.

Lemma init_levels_inv j i tmp ls :
  init_levels j i tmp = Some ls →
  match j with
  | O => ∃ sa, subarray_init i tmp = Some sa ∧ ls = [sa]
  | S j' =>
      ∃ sa rest, subarray_init i (tmp / 2) = Some sa ∧
        init_levels j' (i + 1) (tmp - tmp / 2) = Some rest ∧ ls = sa :: rest
  end.
Proof.
  destruct j as [|j]; simpl; intros H.
  - destruct (subarray_init i tmp) as [sa|]; simplify_eq/=. eauto.
  - destruct (subarray_init i (tmp / 2)) as [sa|]; simplify_eq/=.
    destruct (init_levels j (i + 1) (tmp - tmp / 2)) as [rest|]; simplify_eq/=.
    eauto.
Qed.

Lemma init_levels_length j i tmp ls :
  init_levels j i tmp = Some ls → length ls = S j.
Proof.
  revert i tmp ls; induction j as [|j IH]; intros i tmp ls H%init_levels_inv.
  - by destruct H as (sa & _ & ->).
  - destruct H as (sa & rest & _ & H' & ->). simpl. f_equal. by eapply IH.
Qed.

Lemma init_levels_layout bound j i tmp ls :
  halvings bound tmp j → init_levels j i tmp = Some ls →
  layout_ok bound tmp (capacity <$> ls).
Proof.
  revert i tmp ls; induction j as [|j IH]; intros i tmp ls Hh H%init_levels_inv.
  - destruct H as (sa & [_ ->]%subarray_init_Some & ->). simpl in *. done.
  - destruct Hh as [Hlt Hh].
    destruct H as (sa & rest & [_ ->]%subarray_init_Some & H' & ->).
    pose proof (init_levels_length _ _ _ _ H') as Hlen.
    pose proof (IH _ _ _ Hh H') as IH'. destruct rest; [done|].
    cbn. cbn in IH'. done.
Qed.

Lemma init_levels_fresh j i tmp ls :
  init_levels j i tmp = Some ls → Forall fresh_level ls.
Proof.
  revert i tmp ls; induction j as [|j IH]; intros i tmp ls H%init_levels_inv.
  - destruct H as (sa & [? ->]%subarray_init_Some & ->).
    by repeat constructor.
  - destruct H as (sa & rest & [? ->]%subarray_init_Some & H' & ->).
    constructor; [by repeat split|]. by eapply IH.
Qed.

Lemma init_levels_total bound j i tmp :
  halvings bound tmp j → 0 ≤ tmp → tmp * sizeof_Slot < 2 ^ 64 →
  is_Some (init_levels j i tmp).
Proof.
  unfold sizeof_Slot.
  revert i tmp; induction j as [|j IH]; intros i tmp Hh H0 Hs; simpl;
    unfold subarray_init, sizeof_Slot.
  - rewrite (proj2 (Z.ltb_lt _ _)) by done. done.
  - destruct Hh as [_ Hh].
    assert (0 ≤ tmp / 2 ≤ tmp) by (split; [apply Z.div_pos|apply Z.div_le_upper_bound]; lia).
    rewrite (proj2 (Z.ltb_lt _ _)) by lia. simpl.
    destruct (IH (i + 1) (tmp - tmp / 2)) as [r ->]; [done|lia|lia|]. done.
Qed.

Lemma layout_ok_sum bound r caps :
  layout_ok bound r caps → foldr Z.add 0 caps = r.
Proof.
  revert r; induction caps as [|c caps IH]; intros r; [done|].
  destruct caps as [|c' caps].
  - simpl. lia.
  - intros (? & ? & H%IH). change (c + foldr Z.add 0 (c' :: caps) = r). lia.
Qed.

Lemma layout_ok_positive bound r caps :
  2 ≤ bound → 0 < r → layout_ok bound r caps → Forall (λ c, 0 < c) caps.
Proof.
  intros Hb. revert r; induction caps as [|c caps IH]; intros r Hr; [done|].
  destruct caps as [|c' caps].
  - intros [? ->]. by repeat constructor.
  - intros (? & -> & H).
    assert (1 ≤ r / 2) by (apply Z.div_le_lower_bound; lia).
    assert (r / 2 < r) by (apply Z.div_lt; lia).
    constructor; [lia|]. eapply IH; [|done]. lia.
Qed.

Lemma layout_ok_head bound r c caps :
  layout_ok bound r (c :: caps) → 0 ≤ r → r ≤ 2 * c + 1.
Proof.
  destruct caps as [|c' caps]; simpl.
  - intros [? ->]. lia.
  - intros (? & -> & _) ?.
    pose proof (Z.div_mod r 2 ltac:(lia)). pose proof (Z.mod_pos_bound r 2 ltac:(lia)).
    lia.
Qed.

(** What the layout gives for the level sizes: every level before the last
    holds at least half the bound, and the last level at most the bound. *)
Lemma layout_ok_sizes bound r caps :
  layout_ok bound r caps →
  ∀ i c, caps !! i = Some c →
    if decide (S i = length caps) then c ≤ bound else bound < 2 * c + 1.
Proof.
  revert r; induction caps as [|c0 caps IH]; intros r; [done|].
  destruct caps as [|c' caps].
  - intros [? ->] [|i] c; [|done]. intros [= <-]. simpl. lia.
  - intros (? & -> & H) [|i] c.
    + intros [= <-]. rewrite decide_False by (simpl; lia).
      pose proof (Z.div_mod r 2 ltac:(lia)). pose proof (Z.mod_pos_bound r 2 ltac:(lia)).
      lia.
    + intros Hi. specialize (IH _ H i c Hi).
      change (length (r / 2 :: c' :: caps)) with (S (length (c' :: caps))).
      repeat case_decide; try lia; done.
Qed.

Lemma layout_ok_length bound r caps :
  1 ≤ bound → layout_ok bound r caps → (length caps ≤ Z.to_nat r + 1)%nat.
Proof.
  intros Hb. revert r; induction caps as [|c caps IH]; intros r; [done|].
  destruct caps as [|c' caps].
  - simpl. lia.
  - intros (? & -> & H%IH).
    assert (1 ≤ r / 2) by (apply Z.div_le_lower_bound; lia).
    change (length (r / 2 :: c' :: caps)) with (S (length (c' :: caps))). lia.
Qed.

Lemma layout_ok_spec_loop m r caps fuel :
  layout_ok (2 * m) r caps → (length caps ≤ fuel + 1)%nat →
  spec_layout_loop fuel m r = Some caps.
Proof.
  revert r caps; induction fuel as [|fuel IH]; intros r caps.
  - destruct caps as [|c [|c' caps]]; simpl; [done| |lia].
    intros [? ->] _. by rewrite (proj2 (Z.ltb_ge _ _)).
  - destruct caps as [|c [|c' caps]]; [done| |].
    + intros [? ->] _. simpl. by rewrite (proj2 (Z.ltb_ge _ _)).
    + intros (? & -> & H) Hl. simpl.
      rewrite (proj2 (Z.ltb_lt _ _)) by done.
      rewrite (IH _ _ H); [done|]. simpl in *. lia.
Qed.

(** ** Arrays updated in place *)

Lemma alter_as_insert {A} (f : A → A) (l : list A) i x :
  l !! i = Some x → alter f i l = <[i := f x]> l.
Proof.
  intros Hx. apply list_eq; intros j.
  destruct (decide (i = j)) as [<-|Hne].
  - rewrite list_lookup_alter_eq, Hx.
    by rewrite list_lookup_insert_eq by (by eapply lookup_lt_Some).
  - by rewrite list_lookup_alter_ne, list_lookup_insert_ne.
Qed.

Lemma insert_middle {A} (l : list A) i x y :
  l !! i = Some x →
  ∃ l1 l2, l = l1 ++ x :: l2 ∧ <[i := y]> l = l1 ++ y :: l2.
Proof.
  intros Hx. exists (take i l), (drop (S i) l). split.
  - by rewrite take_drop_middle.
  - apply insert_take_drop. by eapply lookup_lt_Some.
Qed.

Lemma sum_of_app f l1 l2 : sum_of f (l1 ++ l2) = sum_of f l1 + sum_of f l2.
Proof. induction l1 as [|x l1 IH]; simpl; [done|]. unfold sum_of in *; simpl. lia. Qed.

Lemma sum_of_insert f ls i x y :
  ls !! i = Some x → sum_of f (<[i := y]> ls) = sum_of f ls - f x + f y.
Proof.
  intros (l1 & l2 & H1 & H2)%(insert_middle _ _ _ y). rewrite H2, H1.
  rewrite !sum_of_app. unfold sum_of; simpl. lia.
Qed.

Lemma n_state_app st l1 l2 : n_state st (l1 ++ l2) = n_state st l1 + n_state st l2.
Proof. unfold n_state. rewrite filter_app, length_app. lia. Qed.

Lemma n_state_one st s :
  n_state st [s] = if decide (state s = st) then 1 else 0.
Proof.
  unfold n_state. rewrite filter_cons, filter_nil. by case_decide.
Qed.

Lemma n_state_insert st l i x y :
  l !! i = Some x →
  n_state st (<[i := y]> l) =
  n_state st l - (if decide (state x = st) then 1 else 0)
               + (if decide (state y = st) then 1 else 0).
Proof.
  intros (l1 & l2 & H1 & H2)%(insert_middle _ _ _ y). rewrite H2, H1.
  rewrite !n_state_app.
  change (x :: l2) with ([x] ++ l2). change (y :: l2) with ([y] ++ l2).
  rewrite !n_state_app, !n_state_one. lia.
Qed.

Lemma n_state_used l :
  0 ≤ n_state SLOT_OCCUPIED l ∧ 0 ≤ n_state SLOT_TOMBSTONE l ∧
  n_state SLOT_OCCUPIED l + n_state SLOT_TOMBSTONE l ≤ Z.of_nat (length l).
Proof.
  induction l as [|s l IH].
  - unfold n_state; simpl. lia.
  - change (s :: l) with ([s] ++ l).
    rewrite !n_state_app, !n_state_one, length_app. simpl.
    repeat case_decide; try lia; congruence.
Qed.

Lemma n_state_replicate_zero st n :
  st ≠ SLOT_EMPTY → n_state st (replicate n zero_slot) = 0.
Proof.
  intros Hst. induction n as [|n IH]; [done|].
  change (replicate (S n) zero_slot) with ([zero_slot] ++ replicate n zero_slot).
  rewrite n_state_app, n_state_one, IH. by rewrite decide_False.
Qed.

Lemma entries_of_app l1 l2 : entries_of (l1 ++ l2) = entries_of l1 ++ entries_of l2.
Proof. unfold entries_of. by rewrite filter_app, fmap_app. Qed.

Lemma entries_of_one s :
  entries_of [s] = if decide (state s = SLOT_OCCUPIED) then [slot_entry s] else [].
Proof. unfold entries_of. rewrite filter_cons, filter_nil. by case_decide. Qed.

Lemma entries_of_length l : Z.of_nat (length (entries_of l)) = n_state SLOT_OCCUPIED l.
Proof. unfold entries_of, n_state. by rewrite length_fmap. Qed.

Lemma entries_of_insert l i x y :
  l !! i = Some x →
  ∃ R, entries_of l ≡ₚ entries_of [x] ++ R ∧
       entries_of (<[i := y]> l) ≡ₚ entries_of [y] ++ R.
Proof.
  intros (l1 & l2 & H1 & H2)%(insert_middle _ _ _ y).
  exists (entries_of l1 ++ entries_of l2).
  rewrite H2, H1.
  change (x :: l2) with ([x] ++ l2). change (y :: l2) with ([y] ++ l2).
  rewrite !entries_of_app. split; by rewrite Permutation_app_swap_app.
Qed.

Lemma elem_of_entries_of l e :
  e ∈ entries_of l ↔ ∃ i s, l !! i = Some s ∧ state s = SLOT_OCCUPIED ∧ slot_entry s = e.
Proof.
  unfold entries_of. rewrite list_elem_of_fmap. split.
  - intros (s & -> & [Hin Hs]%list_elem_of_filter).
    apply list_elem_of_lookup in Hs as [i Hi]. eauto.
  - intros (i & s & Hi & Hs & <-). exists s. split; [done|].
    apply list_elem_of_filter. split; [done|]. by eapply list_elem_of_lookup_2.
Qed.

Lemma bind_insert {A B} (f : A → list B) (ls : list A) i x y :
  ls !! i = Some x →
  ∃ R, ls ≫= f ≡ₚ f x ++ R ∧ <[i := y]> ls ≫= f ≡ₚ f y ++ R.
Proof.
  intros (l1 & l2 & H1 & H2)%(insert_middle _ _ _ y).
  exists ((l1 ≫= f) ++ (l2 ≫= f)).
  rewrite H2, H1.
  rewrite !bind_app, !bind_cons. split; by rewrite Permutation_app_swap_app.
Qed.

Lemma n_state_pos st l i s :
  l !! i = Some s → state s = st → 1 ≤ n_state st l.
Proof.
  intros (l1 & l2 & H1 & _)%(insert_middle _ _ _ s) Hs. rewrite H1.
  change (s :: l2) with ([s] ++ l2).
  rewrite !n_state_app, n_state_one, decide_True by done.
  pose proof (n_state_used l1). pose proof (n_state_used l2).
  destruct st; unfold n_state in *; lia.
Qed.

Section Proofs.

Context {FB : FloatBudget}.

(** The budget that the floating-point part yields does not shrink when a
    level fills up. *)
Hypothesis budget_mono :
  ∀ c u u', 0 ≤ u → u ≤ u' → u' ≤ c → budget_of u c ≤ budget_of u' c.

(** ** Find *)

Lemma slot_matches_true s q :
  slot_matches s q = true ↔
  state s = SLOT_OCCUPIED ∧ ∃ k, key s = Some k ∧ c_str k = c_str q.
Proof.
  unfold slot_matches, strcmp_eq.
  rewrite andb_true_iff, bool_decide_eq_true.
  destruct (key s) as [k|].
  - rewrite bool_decide_eq_true. split; [intros [? ?]; eauto|].
    by intros (? & k' & [= <-] & ?).
  - split; [intros [_ [=]]|intros (_ & k & [=] & _)].
Qed.

Lemma probe_pos_eq sub q h1 h2 a :
  dual_hash q (level sub) = (h1, h2) →
  Z.to_nat (probe_idx h1 h2 (Z.of_nat a) (capacity sub)) = probe_pos sub q a.
Proof. intros H. unfold probe_pos. by rewrite H. Qed.

Lemma probe_pos_c_str sub q a : probe_pos sub (c_str q) a = probe_pos sub q a.
Proof. unfold probe_pos. by rewrite dual_hash_c_str. Qed.

Lemma find_probe_sound sub q h1 h2 n a idx :
  find_probe sub q h1 h2 n a = Some idx →
  ∃ s, slots sub !! Z.to_nat idx = Some s ∧ slot_matches s q = true.
Proof.
  revert a; induction n as [|n IH]; intros a; simpl; [done|].
  destruct (slots sub !! Z.to_nat (probe_idx h1 h2 a (capacity sub)))
    as [s|] eqn:Hs; [|done].
  destruct (slot_matches s q) eqn:Hm.
  - intros [= <-]. eauto.
  - case_bool_decide; [done|]. apply IH.
Qed.

Lemma find_probe_complete sub q h1 h2 n a a0 :
  dual_hash q (level sub) = (h1, h2) →
  (a ≤ a0 < a + n)%nat →
  (∃ s, slots sub !! probe_pos sub q a0 = Some s ∧ slot_matches s q = true) →
  (∀ a', (a' < a0)%nat →
     ∃ s, slots sub !! probe_pos sub q a' = Some s ∧ state s ≠ SLOT_EMPTY) →
  is_Some (find_probe sub q h1 h2 n (Z.of_nat a)).
Proof.
  intros Hh Ha (s0 & Hs0 & Hm0) Hpath.
  revert a Ha; induction n as [|n IH]; intros a Ha; [lia|]. simpl.
  rewrite (probe_pos_eq _ q) by done.
  destruct (decide (a = a0)) as [->|Hne].
  - rewrite Hs0, Hm0. done.
  - destruct (Hpath a) as (s & Hs & Hne'); [lia|]. rewrite Hs.
    destruct (slot_matches s q); [done|].
    rewrite bool_decide_eq_false_2 by done.
    replace (Z.of_nat a + 1) with (Z.of_nat (S a)) by lia.
    apply IH. lia.
Qed.

Lemma find_from_sound t q n li :
  find_from t q n li = not_found ∨
  ∃ li' sub s,
    level_idx (find_from t q n li) = Z.of_nat li' ∧
    levels t !! li' = Some sub ∧
    slots sub !! Z.to_nat (slot_idx (find_from t q n li)) = Some s ∧
    slot_matches s q = true.
Proof.
  revert li; induction n as [|n IH]; intros li; cbn [find_from]; [by left|].
  destruct (levels t !! li) as [sub|] eqn:Hsub; [|by left].
  destruct (count sub =? 0); [apply IH|].
  destruct (dual_hash q (level sub)) as [h1 h2].
  destruct (find_probe _ _ _ _ _ _) as [idx|] eqn:Hp; [|apply IH].
  right. apply find_probe_sound in Hp as (s & Hs & Hm).
  exists li, sub, s. done.
Qed.

Lemma find_key_cases t q :
  find_key t q = not_found ∨
  ∃ li sub s,
    level_idx (find_key t q) = Z.of_nat li ∧
    levels t !! li = Some sub ∧
    slots sub !! Z.to_nat (slot_idx (find_key t q)) = Some s ∧
    slot_matches s q = true.
Proof. apply find_from_sound. Qed.

Lemma find_from_complete t q n li li' sub idx s :
  (li ≤ li' < li + n)%nat →
  levels t !! li' = Some sub → wf_level sub →
  slots sub !! idx = Some s → slot_matches s q = true →
  0 ≤ level_idx (find_from t q n li).
Proof.
  intros Hli Hsub Hwf Hs Hm.
  pose proof Hm as (Hocc & k & Hk & Hkq)%slot_matches_true.
  revert li Hli; induction n as [|n IH]; intros li Hli; [lia|].
  cbn [find_from].
  destruct (levels t !! li) as [sub0|] eqn:Hsub0; cycle 1.
  { apply lookup_ge_None in Hsub0. apply lookup_lt_Some in Hsub. lia. }
  destruct (Z.eqb_spec (count sub0) 0) as [Hc|Hc].
  { apply IH. destruct (decide (li = li')) as [->|]; [|lia].
    assert (sub0 = sub) as -> by congruence.
    rewrite (wl_count _ Hwf) in Hc.
    pose proof (n_state_pos _ _ _ _ Hs Hocc). lia. }
  destruct (dual_hash q (level sub0)) as [h1 h2] eqn:Hh.
  destruct (find_probe _ _ _ _ _ _) as [idx'|] eqn:Hp; [simpl; lia|].
  apply IH. destruct (decide (li = li')) as [->|]; [|lia].
  assert (sub0 = sub) as -> by congruence.
  destruct (wl_chain _ Hwf _ _ Hs Hocc) as (k' & Hk' & Hn & a0 & Ha0 & Hpos & Hpath).
  assert (k' = k) as -> by congruence.
  assert (Hq : ∀ a, probe_pos sub k a = probe_pos sub q a).
  { intros a. rewrite <- Hn, Hkq. apply probe_pos_c_str. }
  destruct (find_probe_complete sub q h1 h2 (Z.to_nat (probe_budget sub)) 0 a0)
    as [x Hx]; [done|lia| | |].
  - rewrite <- Hq, Hpos. eauto.
  - intros a' Ha'. rewrite <- Hq. by apply Hpath.
  - change (Z.of_nat 0) with 0 in Hx. congruence.
Qed.

Lemma stores_key_true t q :
  stores_key t q = true ↔
  ∃ li sub idx s,
    levels t !! li = Some sub ∧ slots sub !! idx = Some s ∧
    slot_matches s q = true.
Proof.
  unfold stores_key. rewrite existsb_exists. split.
  - intros (sub & Hsub & (s & Hs & Hm)%existsb_exists).
    apply list_elem_of_In, list_elem_of_lookup in Hsub as [li Hli].
    apply list_elem_of_In, list_elem_of_lookup in Hs as [idx Hidx].
    eauto 10.
  - intros (li & sub & idx & s & Hli & Hidx & Hm).
    exists sub. split; [by eapply list_elem_of_In, list_elem_of_lookup_2|].
    apply existsb_exists. exists s.
    split; [by eapply list_elem_of_In, list_elem_of_lookup_2|done].
Qed.

Lemma level_entries_wf sub :
  wf_level sub → level_entries sub = entries_of (slots sub).
Proof.
  intros Hwf. unfold level_entries, entries_of.
  rewrite take_ge; [done|]. pose proof (wl_length _ Hwf). lia.
Qed.

Lemma bind_level_entries ls :
  Forall wf_level ls →
  ls ≫= level_entries = ls ≫= (λ sub, entries_of (slots sub)).
Proof.
  induction 1 as [|sub ls Hsub _ IH]; [done|].
  by rewrite !bind_cons, IH, level_entries_wf.
Qed.

Lemma live_entries_bind t :
  num_levels t = Z.of_nat (length (levels t)) → Forall wf_level (levels t) →
  live_entries t = levels t ≫= (λ sub, entries_of (slots sub)).
Proof.
  intros Hn Hl. unfold live_entries.
  rewrite take_ge by lia. by apply bind_level_entries.
Qed.

Lemma live_entries_wf t :
  wf t → live_entries t = levels t ≫= (λ sub, entries_of (slots sub)).
Proof. intros Hwf. apply live_entries_bind; apply Hwf. Qed.

Lemma elem_of_live_entries t e :
  wf t →
  e ∈ live_entries t ↔
  ∃ li sub idx s,
    levels t !! li = Some sub ∧ slots sub !! idx = Some s ∧
    state s = SLOT_OCCUPIED ∧ slot_entry s = e.
Proof.
  intros Hwf. rewrite live_entries_wf by done.
  rewrite list_elem_of_bind. split.
  - intros (sub & (idx & s & ?)%elem_of_entries_of & [li Hli]%list_elem_of_lookup).
    exists li, sub, idx, s. naive_solver.
  - intros (li & sub & idx & s & Hli & ?). exists sub.
    split; [apply elem_of_entries_of; eauto|by eapply list_elem_of_lookup_2].
Qed.

Lemma wf_lookup_level t li sub :
  wf t → levels t !! li = Some sub → wf_level sub.
Proof.
  intros Hwf Hli. eapply Forall_lookup_1; [apply (wf_levels _ Hwf)|done].
Qed.

Lemma matching_slot_entry t li sub idx s q :
  wf t → levels t !! li = Some sub → slots sub !! idx = Some s →
  slot_matches s q = true →
  state s = SLOT_OCCUPIED ∧
  slot_entry s = (Some (c_str q), value s, value_len s).
Proof.
  intros Hwf Hli Hs (Hocc & k & Hk & Hkq)%slot_matches_true.
  split; [done|].
  destruct (wl_chain _ (wf_lookup_level _ _ _ Hwf Hli) _ _ Hs Hocc)
    as (k' & Hk' & Hn & _).
  unfold slot_entry. rewrite Hk. do 3 f_equal. congruence.
Qed.

Lemma NoDup_fmap_eq {A B} (f : A → B) (l : list A) x y :
  NoDup (f <$> l) → x ∈ l → y ∈ l → f x = f y → x = y.
Proof.
  induction l as [|z l IH]; [by intros _ ?%elem_of_nil|].
  rewrite fmap_cons, NoDup_cons, !elem_of_cons.
  intros [Hz Hnd] [->|Hx] [->|Hy] Hf; [done| | |by apply IH].
  - destruct Hz. rewrite Hf. by apply list_elem_of_fmap_2.
  - destruct Hz. rewrite <- Hf. by apply list_elem_of_fmap_2.
Qed.

Lemma live_entries_functional t k v len v' len' :
  wf t → (k, v, len) ∈ live_entries t → (k, v', len') ∈ live_entries t →
  v = v' ∧ len = len'.
Proof.
  intros Hwf H1 H2.
  pose proof (NoDup_fmap_eq _ _ _ _ (wf_keys _ Hwf) H1 H2 eq_refl). naive_solver.
Qed.

Lemma find_key_found_iff t q :
  wf t → 0 ≤ level_idx (find_key t q) ↔ stores_key t q = true.
Proof.
  intros Hwf. rewrite stores_key_true. split.
  - destruct (find_key_cases t q) as [->|(li & sub & s & _ & ? & ? & ?)];
      [simpl; lia|]. eauto 10.
  - intros (li & sub & idx & s & Hli & Hs & Hm).
    eapply (find_from_complete _ _ _ 0 li); [|done|by eapply wf_lookup_level|done..].
    apply lookup_lt_Some in Hli. rewrite (wf_num_levels _ Hwf). lia.
Qed.

Lemma find_key_not_found t q :
  level_idx (find_key t q) < 0 → find_key t q = not_found.
Proof.
  destruct (find_key_cases t q) as [->|(li & sub & s & Hl & _)]; [done|lia].
Qed.

Lemma eht_contains_iff t q :
  wf t → eht_contains t q = 1 ↔ stores_key t q = true.
Proof.
  intros Hwf. rewrite <- find_key_found_iff by done. unfold eht_contains.
  destruct (Z.leb_spec 0 (level_idx (find_key t q))); split; intros; lia.
Qed.

Lemma eht_contains_0 t q :
  wf t → eht_contains t q = 0 ↔ stores_key t q = false.
Proof.
  intros Hwf. pose proof (eht_contains_iff t q Hwf) as H.
  unfold eht_contains in *.
  destruct (0 <=? level_idx (find_key t q)), (stores_key t q); naive_solver.
Qed.

Lemma eht_get_found t q :
  0 ≤ level_idx (find_key t q) →
  ∃ li sub s,
    level_idx (find_key t q) = Z.of_nat li ∧
    levels t !! li = Some sub ∧
    slots sub !! Z.to_nat (slot_idx (find_key t q)) = Some s ∧
    slot_matches s q = true ∧
    eht_get t q = Some (value s, value_len s).
Proof.
  intros Hfound.
  destruct (find_key_cases t q) as [Hnf|(li & sub & s & Hl & Hli & Hs & Hm)].
  { rewrite Hnf in Hfound. simpl in Hfound. lia. }
  exists li, sub, s. repeat split; try done.
  unfold eht_get. rewrite (proj2 (Z.ltb_ge _ _)) by done.
  rewrite Hl, Nat2Z.id, Hli. simpl. by rewrite Hs.
Qed.

(** Under the invariant, [eht_get] reads the table as the finite map that
    its live entries are. *)
Lemma eht_get_spec t q v len :
  wf t →
  eht_get t q = Some (v, len) ↔ (Some (c_str q), v, len) ∈ live_entries t.
Proof.
  intros Hwf. split.
  - intros Hget.
    destruct (Z.ltb_spec (level_idx (find_key t q)) 0) as [Hlt|Hge].
    { unfold eht_get in Hget. by rewrite (proj2 (Z.ltb_lt _ _)) in Hget. }
    destruct (eht_get_found t q Hge) as (li & sub & s & _ & Hli & Hs & Hm & Hg).
    rewrite Hg in Hget. injection Hget as <- <-.
    destruct (matching_slot_entry _ _ _ _ _ _ Hwf Hli Hs Hm) as [Hocc <-].
    apply elem_of_live_entries; eauto 10.
  - intros Hin.
    pose proof Hin as (li0 & sub0 & idx0 & s0 & Hli0 & Hs0 & Hocc0 & He0)%elem_of_live_entries;
      [|done].
    assert (Hm0 : slot_matches s0 q = true).
    { apply slot_matches_true. split; [done|]. exists (c_str q).
      unfold slot_entry in He0. split; [congruence|apply c_str_idemp]. }
    assert (Hge : 0 ≤ level_idx (find_key t q)).
    { apply find_key_found_iff; [done|]. apply stores_key_true. eauto 10. }
    destruct (eht_get_found t q Hge) as (li & sub & s & _ & Hli & Hs & Hm & Hg).
    rewrite Hg.
    destruct (matching_slot_entry _ _ _ _ _ _ Hwf Hli Hs Hm) as [Hocc He].
    assert (Hin' : (Some (c_str q), value s, value_len s) ∈ live_entries t).
    { rewrite <- He. apply elem_of_live_entries; eauto 10. }
    by destruct (live_entries_functional _ _ _ _ _ _ Hwf Hin Hin') as [-> ->].
Qed.

Lemma eht_get_None t q :
  wf t → eht_get t q = None ↔ stores_key t q = false.
Proof.
  intros Hwf. rewrite <- not_true_iff_false, <- find_key_found_iff by done.
  split.
  - intros Hg Hge. destruct (eht_get_found t q Hge) as (? & ? & ? & ? & ? & ? & ? & ?).
    congruence.
  - intros Hlt. unfold eht_get. rewrite (proj2 (Z.ltb_lt _ _)); [done|lia].
Qed.

Lemma stores_key_live_entries t q :
  wf t →
  stores_key t q = true ↔ ∃ v len, (Some (c_str q), v, len) ∈ live_entries t.
Proof.
  intros Hwf. split.
  - intros Hs.
    destruct (eht_get t q) as [[v len]|] eqn:Hg.
    + exists v, len. by apply eht_get_spec.
    + apply eht_get_None in Hg; [congruence|done].
  - intros (v & len & Hin%eht_get_spec); [|done].
    destruct (stores_key t q) eqn:E; [done|].
    apply eht_get_None in E; [congruence|done].
Qed.

(** ** One slot of one level rewritten *)

Lemma used_replace l idx s s' :
  l !! idx = Some s → state s' ≠ SLOT_EMPTY →
  n_state SLOT_OCCUPIED l + n_state SLOT_TOMBSTONE l ≤
  n_state SLOT_OCCUPIED (<[idx := s']> l) + n_state SLOT_TOMBSTONE (<[idx := s']> l).
Proof.
  intros Hs Hne. rewrite !(n_state_insert _ _ _ _ _ Hs).
  destruct (state s), (state s'); repeat case_decide; try lia; congruence.
Qed.

Lemma wf_level_used sub :
  wf_level sub →
  0 ≤ count sub ∧ 0 ≤ tombstones sub ∧
  count sub + tombstones sub ≤ capacity sub ∧ capacity sub < 2 ^ 59.
Proof.
  intros Hwf. pose proof (n_state_used (slots sub)).
  rewrite (wl_count _ Hwf), (wl_tombstones _ Hwf), <- (wl_length _ Hwf).
  pose proof (wl_cap_alloc _ Hwf). rewrite <- (wl_length _ Hwf) in *.
  unfold sizeof_Slot in *. lia.
Qed.

Lemma probe_budget_wf sub :
  wf_level sub →
  probe_budget sub =
  budget_of (n_state SLOT_OCCUPIED (slots sub) + n_state SLOT_TOMBSTONE (slots sub))
    (capacity sub).
Proof.
  intros Hwf. unfold probe_budget.
  pose proof (wf_level_used _ Hwf).
  rewrite wrap64_small by lia.
  by rewrite (wl_count _ Hwf), (wl_tombstones _ Hwf).
Qed.

Section replace.

Context (sub sub' : SubArray) (idx : nat) (s s' : Slot).
Hypothesis Hwf : wf_level sub.
Hypothesis Hs : slots sub !! idx = Some s.
Hypothesis Hne : state s' ≠ SLOT_EMPTY.
Hypothesis Hlevel : level sub' = level sub.
Hypothesis Hcap : capacity sub' = capacity sub.
Hypothesis Hslots : slots sub' = <[idx := s']> (slots sub).
Hypothesis Hcount : count sub' = n_state SLOT_OCCUPIED (slots sub').
Hypothesis Htomb : tombstones sub' = n_state SLOT_TOMBSTONE (slots sub').

Lemma replace_budget : probe_budget sub ≤ probe_budget sub'.
Proof using All.
  rewrite (probe_budget_wf sub) by done.
  unfold probe_budget. rewrite Hcount, Htomb, Hcap, Hslots.
  pose proof (n_state_used (<[idx := s']> (slots sub))) as Hu.
  rewrite length_insert, (wl_length _ Hwf) in Hu.
  pose proof (wl_cap_alloc _ Hwf). unfold sizeof_Slot in *.
  rewrite wrap64_small by lia.
  pose proof (n_state_used (slots sub)).
  apply budget_mono; [lia|by eapply used_replace|lia].
Qed.

Lemma replace_probe_pos k a : probe_pos sub' k a = probe_pos sub k a.
Proof using Hlevel Hcap. unfold probe_pos. by rewrite Hlevel, Hcap. Qed.

Lemma replace_chain k j : chain sub k j → chain sub' k j.
Proof using All.
  intros (a & Ha & Hpos & Hpath). exists a.
  split; [pose proof replace_budget; lia|].
  split; [by rewrite replace_probe_pos|].
  intros a' Ha'. rewrite replace_probe_pos, Hslots.
  destruct (Hpath a' Ha') as (s1 & Hs1 & Hne1).
  destruct (decide (idx = probe_pos sub k a')) as [Heq|Hneq].
  - exists s'. rewrite <- Heq. split; [|done].
    apply list_lookup_insert_eq. by eapply lookup_lt_Some.
  - exists s1. by rewrite list_lookup_insert_ne.
Qed.

Lemma wf_level_replace :
  (state s' = SLOT_OCCUPIED →
   ∃ k, key s' = Some k ∧ c_str k = k ∧ chain sub k idx) →
  wf_level sub'.
Proof using All.
  intros Hnew. split.
  - rewrite Hcap. apply Hwf.
  - rewrite Hcap. apply Hwf.
  - rewrite Hslots, length_insert, Hcap. apply Hwf.
  - done.
  - done.
  - intros j sj. rewrite Hslots.
    destruct (decide (idx = j)) as [<-|Hneq].
    + rewrite list_lookup_insert_eq by (by eapply lookup_lt_Some).
      intros [= <-] Hocc. destruct (Hnew Hocc) as (k & ? & ? & ?).
      exists k. eauto using replace_chain.
    + rewrite list_lookup_insert_ne by done. intros Hj Hocc.
      destruct (wl_chain _ Hwf _ _ Hj Hocc) as (k & ? & ? & ?).
      exists k. eauto using replace_chain.
Qed.

End replace.

Lemma sum_of_capacity ls : foldr Z.add 0 (capacity <$> ls) = sum_of capacity ls.
Proof.
  induction ls as [|x ls IH]; [done|].
  rewrite fmap_cons. unfold sum_of in *. cbn [foldr]. by rewrite IH.
Qed.

Lemma sum_of_count_bounds ls :
  Forall wf_level ls → 0 ≤ sum_of count ls ≤ sum_of capacity ls.
Proof.
  induction 1 as [|sub ls Hsub _ IH]; [done|].
  pose proof (wf_level_used _ Hsub). unfold sum_of in *; simpl. lia.
Qed.

Lemma wf_total_capacity t :
  wf t → sum_of capacity (levels t) = total_capacity t.
Proof.
  intros Hwf. rewrite <- sum_of_capacity. eapply layout_ok_sum, wf_layout, Hwf.
Qed.

Lemma live_entries_replace (ls : list SubArray) li sub sub' idx s s' :
  ls !! li = Some sub → slots sub !! idx = Some s →
  slots sub' = <[idx := s']> (slots sub) →
  ∃ R, ls ≫= (λ sub, entries_of (slots sub)) ≡ₚ entries_of [s] ++ R ∧
       <[li := sub']> ls ≫= (λ sub, entries_of (slots sub)) ≡ₚ entries_of [s'] ++ R.
Proof.
  intros Hli Hs Hsl.
  destruct (bind_insert (λ sub, entries_of (slots sub)) ls li sub sub' Hli)
    as (R1 & H1 & H2).
  destruct (entries_of_insert (slots sub) idx s s' Hs) as (R2 & H3 & H4).
  exists (R2 ++ R1). rewrite H1, H2, Hsl, H3, H4. by rewrite !(assoc (++)).
Qed.

(** The table with level [li] replaced by a level of the same capacity. *)
Lemma wf_replace_level t li sub sub' c :
  wf t → levels t !! li = Some sub → wf_level sub' →
  capacity sub' = capacity sub →
  c = t_count t - count sub + count sub' →
  NoDup (fst ∘ fst <$>
           (<[li := sub']> (levels t) ≫= (λ sub, entries_of (slots sub)))) →
  wf (set_levels t (num_levels t) c (<[li := sub']> (levels t))).
Proof.
  intros Hwf Hli Hsub' Hcap -> Hnd.
  assert (Hl : Forall wf_level (<[li := sub']> (levels t))).
  { apply Forall_insert; [apply Hwf|done]. }
  split; simpl.
  - rewrite length_insert. apply Hwf.
  - done.
  - rewrite (sum_of_insert _ _ _ _ _ Hli), (wf_count _ Hwf). lia.
  - apply Hwf.
  - apply Hwf.
  - rewrite list_fmap_insert, Hcap, list_insert_id; [apply Hwf|].
    by rewrite list_lookup_fmap, Hli.
  - rewrite live_entries_bind; [done| |done].
    simpl. rewrite length_insert. apply Hwf.
Qed.

Lemma wf_count_entries t :
  wf t → t_count t = Z.of_nat (length (live_entries t)).
Proof.
  intros Hwf. rewrite live_entries_wf, (wf_count _ Hwf) by done.
  pose proof (wf_levels _ Hwf) as Hl.
  induction Hl as [|sub ls Hsub _ IH]; [done|].
  rewrite bind_cons, length_app, Nat2Z.inj_add, <- IH, entries_of_length.
  unfold sum_of; simpl. by rewrite (wl_count _ Hsub).
Qed.

(** ** The insert cascade *)

Lemma place_probe_spec sub k v len h1 h2 n a sub' :
  dual_hash k (level sub) = (h1, h2) →
  (∀ a', (a' < a)%nat →
     ∃ s, slots sub !! probe_pos sub k a' = Some s ∧ state s ≠ SLOT_EMPTY) →
  place_probe sub k v len h1 h2 n (Z.of_nat a) = Some sub' →
  ∃ a0 s,
    (a ≤ a0 < a + n)%nat ∧
    slots sub !! probe_pos sub k a0 = Some s ∧
    state s ≠ SLOT_OCCUPIED ∧
    (∀ a', (a' < a0)%nat →
       ∃ s, slots sub !! probe_pos sub k a' = Some s ∧ state s ≠ SLOT_EMPTY) ∧
    sub' =
      {| level := level sub; capacity := capacity sub;
         count := wrap64 (count sub + 1);
         tombstones :=
           if bool_decide (state s = SLOT_TOMBSTONE)
           then wrap64 (tombstones sub - 1) else tombstones sub;
         slots := <[probe_pos sub k a0 := occupied k v len]> (slots sub) |}.
Proof.
  intros Hh. revert a; induction n as [|n IH]; intros a Hpath; [done|].
  cbn [place_probe]. rewrite (probe_pos_eq _ k) by done.
  destruct (slots sub !! probe_pos sub k a) as [s|] eqn:Hs; [|done].
  case_bool_decide as Hst.
  - intros [= <-]. exists a, s. split; [lia|]. split; [done|].
    split; [by destruct Hst as [-> | ->]|]. done.
  - replace (Z.of_nat a + 1) with (Z.of_nat (S a)) by lia.
    intros (a0 & s0 & ? & ?)%IH.
    + exists a0, s0. split; [lia|done].
    + intros a' Ha'. destruct (decide (a' = a)) as [->|]; [|apply Hpath; lia].
      exists s. split; [done|]. intros E. apply Hst. by left.
Qed.

Lemma place_probe_wf sub k v len h1 h2 sub' :
  wf_level sub → c_str k = k →
  dual_hash k (level sub) = (h1, h2) →
  place_probe sub k v len h1 h2 (Z.to_nat (probe_budget sub)) 0 = Some sub' →
  wf_level sub' ∧ capacity sub' = capacity sub ∧
  count sub' = count sub + 1 ∧
  ∃ idx s, slots sub !! idx = Some s ∧ state s ≠ SLOT_OCCUPIED ∧
           slots sub' = <[idx := occupied k v len]> (slots sub).
Proof.
  intros Hwf Hk Hh Hp.
  apply (place_probe_spec _ _ _ _ _ _ _ 0%nat) in Hp
    as (a0 & s & Ha0 & Hs & Hst & Hpath & ->); [|done|intros; lia].
  pose proof (wf_level_used _ Hwf) as Hu.
  pose proof (n_state_insert SLOT_OCCUPIED _ _ _ (occupied k v len) Hs) as Hocc.
  pose proof (n_state_insert SLOT_TOMBSTONE _ _ _ (occupied k v len) Hs) as Htomb.
  pose proof (n_state_used (<[probe_pos sub k a0 := occupied k v len]> (slots sub))) as Hu'.
  rewrite length_insert, (wl_length _ Hwf) in Hu'.
  rewrite decide_False in Hocc by done. simpl in Hocc, Htomb.
  rewrite <- (wl_count _ Hwf) in Hocc. rewrite <- (wl_tombstones _ Hwf) in Htomb.
  assert (Hc : wrap64 (count sub + 1) = count sub + 1) by (apply wrap64_small; lia).
  split; [|split; [done|split; [done|eauto]]].
  eapply (wf_level_replace sub _ _ s (occupied k v len)); try done; simpl.
  - rewrite Hc, Hocc. lia.
  - case_bool_decide as E.
    + rewrite decide_True in Htomb by done. rewrite Htomb, Z.add_0_r.
      apply wrap64_small. lia.
    + rewrite decide_False in Htomb by done. lia.
  - intros _. exists k. split; [done|]. split; [done|].
    exists a0. split; [lia|done].
Qed.

Lemma place_from_spec t k v len n li t' :
  place_from t k v len n li = Some t' →
  ∃ li' sub h1 h2 sub',
    levels t !! li' = Some sub ∧ dual_hash k (level sub) = (h1, h2) ∧
    place_probe sub k v len h1 h2 (Z.to_nat (probe_budget sub)) 0 = Some sub' ∧
    t' = set_levels t (num_levels t) (wrap64 (t_count t + 1))
           (<[li' := sub']> (levels t)).
Proof.
  revert li; induction n as [|n IH]; intros li; [done|]. cbn [place_from].
  destruct (levels t !! li) as [sub|] eqn:Hsub; [|done].
  destruct (dual_hash k (level sub)) as [h1 h2] eqn:Hh.
  destruct (place_probe _ _ _ _ _ _ _ _) as [sub'|] eqn:Hp; [|apply IH].
  intros [= <-]. exists li, sub, h1, h2, sub'. done.
Qed.

Lemma fresh_key_not_elem t k :
  fresh_key t k → Some k ∉ (fst ∘ fst <$> live_entries t).
Proof.
  intros Hf ([[k' v] len] & Hk & Hin)%list_elem_of_fmap. simpl in Hk. subst.
  by eapply Hf.
Qed.

Lemma place_wf t k v len t' :
  wf t → c_str k = k → fresh_key t k →
  place t k v len = Some t' →
  wf t' ∧ live_entries t' ≡ₚ (Some k, v, len) :: live_entries t ∧
  total_capacity t' = total_capacity t ∧ same_config t t'.
Proof.
  intros Hwf Hk Hfresh
    (li & sub & h1 & h2 & sub' & Hli & Hh & Hp & ->)%place_from_spec.
  pose proof (wf_lookup_level _ _ _ Hwf Hli) as Hsub.
  destruct (place_probe_wf _ _ _ _ _ _ _ Hsub Hk Hh Hp)
    as (Hsub' & Hcap & Hcount & idx & s & Hs & Hst & Hsl).
  destruct (live_entries_replace _ _ _ sub' _ _ (occupied k v len) Hli Hs Hsl)
    as (R & HR & HR').
  rewrite !entries_of_one, decide_False in HR by done.
  rewrite entries_of_one, decide_True in HR' by done.
  simpl in HR, HR'. rewrite <- HR in HR'.
  rewrite <- live_entries_wf in HR' by done.
  assert (Hc : wrap64 (t_count t + 1) = t_count t - count sub + count sub').
  { pose proof (sum_of_count_bounds _ (wf_levels _ Hwf)) as Hb.
    assert (Hl : Forall wf_level (<[li := sub']> (levels t))).
    { apply Forall_insert; [apply Hwf|done]. }
    pose proof (sum_of_count_bounds _ Hl) as Hb'.
    rewrite !(sum_of_insert _ _ _ _ _ Hli), Hcap, wf_total_capacity in Hb' by done.
    rewrite <- (wf_count _ Hwf) in *. pose proof (wf_cap _ Hwf).
    rewrite wrap64_small; lia. }
  assert (Hwf' : wf (set_levels t (num_levels t) (wrap64 (t_count t + 1))
                      (<[li := sub']> (levels t)))).
  { eapply wf_replace_level; try done.
    rewrite HR', fmap_cons. apply NoDup_cons.
    split; [by apply fresh_key_not_elem|apply Hwf]. }
  split; [done|]. split; [|done].
  rewrite (live_entries_wf _ Hwf'). simpl. by rewrite HR'.
Qed.

(** ** New levels *)

Lemma entries_of_replicate_zero n : entries_of (replicate n zero_slot) = [].
Proof.
  apply length_zero_iff_nil, Nat2Z.inj.
  rewrite entries_of_length. by apply n_state_replicate_zero.
Qed.

Lemma fresh_level_wf sub : fresh_level sub → 0 < capacity sub → wf_level sub.
Proof.
  intros (Halloc & Hc & Ht & Hsl) Hpos. split; try done.
  - rewrite Hsl, length_replicate. lia.
  - rewrite Hc, Hsl. by rewrite n_state_replicate_zero.
  - rewrite Ht, Hsl. by rewrite n_state_replicate_zero.
  - intros idx s. rewrite Hsl. intros [-> _]%lookup_replicate. done.
Qed.

Lemma build_levels_spec t C t1 :
  1 ≤ min_level_size t < 2 ^ 63 → 0 < C →
  build_levels t C = Some t1 →
  ∃ ls, t1 = set_levels t (Z.of_nat (length ls)) (t_count t) ls ∧
        layout_ok (2 * min_level_size t) C (capacity <$> ls) ∧
        Forall fresh_level ls ∧ Forall wf_level ls.
Proof.
  intros Hm HC. unfold build_levels.
  rewrite (wrap64_small (min_level_size t * 2)) by lia.
  destruct (count_levels _ _ _ _) as [n|] eqn:Hn; [|done]. simpl.
  apply count_levels_halvings in Hn as (j & -> & Hj).
  replace (Z.to_nat (0 + Z.of_nat j + 1 - 1)) with j by lia.
  destruct (init_levels j 0 C) as [ls|] eqn:Hls; [|done]. simpl.
  intros [= <-]. exists ls.
  pose proof (init_levels_length _ _ _ _ Hls) as Hlen.
  pose proof (init_levels_fresh _ _ _ _ Hls) as Hfresh.
  replace (min_level_size t * 2) with (2 * min_level_size t) in Hj by lia.
  pose proof (init_levels_layout _ _ _ _ _ Hj Hls) as Hlay.
  split; [f_equal; lia|]. split; [done|]. split; [done|].
  assert (Hb : 2 ≤ 2 * min_level_size t) by lia.
  pose proof (layout_ok_positive _ _ _ Hb HC Hlay) as Hpos.
  rewrite Forall_fmap in Hpos.
  eapply Forall_impl; [apply Forall_and; split; [apply Hfresh|apply Hpos]|].
  intros sub [? ?]. by apply fresh_level_wf.
Qed.

Lemma build_levels_wf t C t1 :
  1 ≤ min_level_size t < 2 ^ 63 → 0 < C →
  t_count t = 0 → total_capacity t = C →
  build_levels t C = Some t1 →
  wf t1 ∧ live_entries t1 = [] ∧ total_capacity t1 = C ∧ same_config t t1.
Proof.
  intros Hm HC Hcount Hcap (ls & -> & Hlay & Hfresh & Hwf)%build_levels_spec;
    [|done..].
  assert (Hlive : live_entries (set_levels t (Z.of_nat (length ls)) (t_count t) ls) = []).
  { rewrite live_entries_bind by done. simpl.
    clear Hlay Hwf. induction Hfresh as [|sub ls (_ & _ & _ & Hsl) _ IH]; [done|].
    by rewrite bind_cons, IH, Hsl, entries_of_replicate_zero. }
  split; [|done].
  split; simpl; try done.
  - rewrite Hcount. clear Hlay Hwf Hlive.
    induction Hfresh as [|sub ls (_ & Hc & _) _ IH]; [done|].
    unfold sum_of in *; simpl. lia.
  - rewrite Hcap. split; [done|].
    destruct ls as [|sub ls]; [done|].
    apply layout_ok_head in Hlay; [|lia].
    apply Forall_cons in Hfresh as [(Ha & _) _]. unfold sizeof_Slot in Ha. lia.
  - by rewrite Hcap.
  - rewrite Hlive. constructor.
Qed.

(** ** Rebuild and insertion with ownership transfer *)

Lemma same_config_trans t1 t2 t3 :
  same_config t1 t2 → same_config t2 t3 → same_config t1 t3.
Proof. unfold same_config. intros (? & ? & ?) (? & ? & ?). repeat split; congruence. Qed.

Lemma live_entries_normal t : wf t → Forall normal_entry (live_entries t).
Proof.
  intros Hwf. apply Forall_forall. intros e.
  intros (li & sub & idx & s & Hli & Hs & Hocc & <-)%elem_of_live_entries; [|done].
  destruct (wl_chain _ (wf_lookup_level _ _ _ Hwf Hli) _ _ Hs Hocc) as (k & ? & ? & _).
  exists k. done.
Qed.

Lemma reinsert_spec ins es t t' :
  ins_ok ins → wf t → Forall normal_entry es →
  NoDup (fst ∘ fst <$> (es ++ live_entries t)) →
  reinsert ins es t = Some t' →
  wf t' ∧ live_entries t' ≡ₚ es ++ live_entries t ∧
  total_capacity t ≤ total_capacity t' ∧ same_config t t'.
Proof.
  intros Hins. revert t; induction es as [|[[ko v] len] es IH]; intros t Hwf Hn Hnd.
  - intros [= <-]. split; [done|]. split; [done|]. split; [lia|].
    by repeat split.
  - apply Forall_cons in Hn as [(k & Hko & Hk) Hn]. simpl in Hko. subst ko.
    cbn [reinsert].
    destruct (ins t k v len) as [t1|] eqn:Hi; [|done]. simpl.
    rewrite <- app_comm_cons, fmap_cons in Hnd. apply NoDup_cons in Hnd as [Hnotin Hnd].
    assert (Hfresh : fresh_key t k).
    { intros v' len' Hin. apply Hnotin.
      apply (list_elem_of_fmap_2 (fst ∘ fst) _ (Some k, v', len')).
      apply elem_of_app. by right. }
    destruct (Hins _ _ _ _ _ Hwf Hk Hfresh Hi) as (Hwf1 & Hp1 & Hc1 & Hs1).
    intros Hre. apply IH in Hre as (Hwf' & Hp' & Hc' & Hs'); [|done|done|].
    + split; [done|]. split; [|split; [lia|by eapply same_config_trans]].
      rewrite Hp', Hp1. by rewrite Permutation_middle.
    + rewrite Hp1, <- Permutation_middle, fmap_cons. apply NoDup_cons. done.
Qed.

Lemma rebuild_with_spec ins t C t' :
  ins_ok ins → wf t → 0 < C →
  rebuild_with ins t C = Some t' →
  wf t' ∧ live_entries t' ≡ₚ live_entries t ∧
  C ≤ total_capacity t' ∧ same_config t t'.
Proof.
  intros Hins Hwf HC. unfold rebuild_with.
  destruct (build_levels _ C) as [t1|] eqn:Hb; [|done]. simpl.
  apply build_levels_wf in Hb as (Hwf1 & Hl1 & Hc1 & Hs1);
    [|apply Hwf|done|done|done].
  intros Hre. apply reinsert_spec in Hre as (Hwf' & Hp' & Hc' & Hs');
    [|done|done|by apply live_entries_normal|].
  - rewrite Hl1, app_nil_r in Hp'. split; [done|]. split; [done|].
    split; [lia|]. eapply same_config_trans; [|done]. done.
  - rewrite Hl1, app_nil_r. apply Hwf.
Qed.

Lemma fresh_key_perm t t' k :
  live_entries t' ≡ₚ live_entries t → fresh_key t k → fresh_key t' k.
Proof. intros Hp Hf v len. rewrite Hp. apply Hf. Qed.

Lemma insert_owned_ok fuel : ins_ok (insert_owned fuel).
Proof.
  induction fuel as [|fuel IH]; intros t k v len t' Hwf Hk Hfresh; [done|].
  cbn [insert_owned].
  destruct (place t k v len) as [t1|] eqn:Hp.
  - intros [= <-].
    destruct (place_wf _ _ _ _ _ Hwf Hk Hfresh Hp) as (? & ? & ? & ?).
    split; [done|]. split; [done|]. split; [lia|done].
  - pose proof (wf_cap _ Hwf) as Hcap.
    rewrite wrap64_small by lia.
    destruct (rebuild_with _ t _) as [t1|] eqn:Hr; [|done]. simpl.
    apply rebuild_with_spec in Hr as (Hwf1 & Hp1 & Hc1 & Hs1); [|done|done|lia].
    intros Hi. apply IH in Hi as (Hwf' & Hp' & Hc' & Hs');
      [|done|done|by eapply fresh_key_perm].
    split; [done|]. split; [by rewrite Hp', Hp1|].
    split; [lia|by eapply same_config_trans].
Qed.

Lemma rebuild_ok fuel t C t' :
  wf t → 0 < C → rebuild fuel t C = Some t' →
  wf t' ∧ live_entries t' ≡ₚ live_entries t ∧
  C ≤ total_capacity t' ∧ same_config t t'.
Proof. apply rebuild_with_spec, insert_owned_ok. Qed.

(** ** Update in place and delete *)

Lemma wf_replace_slot t li sub idx s s' sub' c :
  wf t → levels t !! li = Some sub → slots sub !! idx = Some s →
  wf_level sub' → capacity sub' = capacity sub →
  slots sub' = <[idx := s']> (slots sub) →
  c = t_count t - count sub + count sub' →
  (∀ R, NoDup (fst ∘ fst <$> (entries_of [s] ++ R)) →
        NoDup (fst ∘ fst <$> (entries_of [s'] ++ R))) →
  wf (set_levels t (num_levels t) c (<[li := sub']> (levels t))) ∧
  ∃ R, live_entries t ≡ₚ entries_of [s] ++ R ∧
       live_entries (set_levels t (num_levels t) c (<[li := sub']> (levels t)))
         ≡ₚ entries_of [s'] ++ R.
Proof.
  intros Hwf Hli Hs Hsub' Hcap Hsl Hc Hnd.
  destruct (live_entries_replace _ _ _ sub' _ _ s' Hli Hs Hsl) as (R & HR & HR').
  rewrite <- live_entries_wf in HR by done.
  assert (Hwf' : wf (set_levels t (num_levels t) c (<[li := sub']> (levels t)))).
  { eapply wf_replace_level; try done.
    rewrite HR'. apply Hnd. rewrite <- HR. apply Hwf. }
  split; [done|]. exists R. split; [done|].
  by rewrite (live_entries_wf _ Hwf').
Qed.

Lemma update_slot_found f li idx (ls : list SubArray) sub s :
  ls !! li = Some sub → slots sub !! idx = Some s →
  update_slot f (Z.of_nat li) (Z.of_nat idx) ls =
  <[li := set_slots sub (<[idx := f s]> (slots sub))]> ls.
Proof.
  intros Hli Hs. unfold update_slot. rewrite !Nat2Z.id.
  rewrite (alter_as_insert _ _ _ _ Hli). by rewrite (alter_as_insert _ _ _ _ Hs).
Qed.

Lemma find_probe_nonneg sub q h1 h2 n a idx :
  0 < capacity sub → find_probe sub q h1 h2 n a = Some idx → 0 ≤ idx.
Proof.
  intros Hcap. revert a; induction n as [|n IH]; intros a; cbn [find_probe]; [done|].
  destruct (slots sub !! Z.to_nat (probe_idx h1 h2 a (capacity sub))) as [s|];
    [|done].
  destruct (slot_matches s q).
  - intros [= <-]. unfold probe_idx. apply Z.mod_pos_bound. lia.
  - case_bool_decide; [done|apply IH].
Qed.

Lemma find_from_nonneg t q n li :
  wf t → 0 ≤ slot_idx (find_from t q n li).
Proof.
  intros Hwf. revert li; induction n as [|n IH]; intros li; cbn [find_from]; [done|].
  destruct (levels t !! li) as [sub|] eqn:Hsub; [|done].
  destruct (count sub =? 0); [apply IH|].
  destruct (dual_hash q (level sub)) as [h1 h2].
  destruct (find_probe _ _ _ _ _ _) as [idx|] eqn:Hp; [|apply IH].
  simpl. eapply find_probe_nonneg; [|done].
  apply (wf_lookup_level _ _ _ Hwf Hsub).
Qed.

Lemma find_key_slot_idx t q :
  wf t → 0 ≤ level_idx (find_key t q) →
  ∃ li idx sub s,
    find_key t q = {| level_idx := Z.of_nat li; slot_idx := Z.of_nat idx |} ∧
    levels t !! li = Some sub ∧ slots sub !! idx = Some s ∧
    slot_matches s q = true.
Proof.
  intros Hwf Hge.
  destruct (find_key_cases t q) as [Hnf|(li & sub & s & Hl & Hli & Hs & Hm)].
  { rewrite Hnf in Hge. simpl in Hge. lia. }
  exists li, (Z.to_nat (slot_idx (find_key t q))), sub, s.
  split; [|done].
  pose proof (find_from_nonneg t q (Z.to_nat (num_levels t)) 0 Hwf) as Hi.
  fold (find_key t q) in Hi.
  destruct (find_key t q) as [l i]. simpl in *. f_equal; lia.
Qed.

Lemma eht_insert_found fuel t q v len li idx sub s :
  find_key t q = {| level_idx := Z.of_nat li; slot_idx := Z.of_nat idx |} →
  levels t !! li = Some sub → slots sub !! idx = Some s →
  eht_insert fuel t q v len =
  Some (set_levels t (num_levels t) (t_count t)
          (<[li := set_slots sub (<[idx := new_value v len s]> (slots sub))]>
             (levels t))).
Proof.
  intros Hf Hli Hs. unfold eht_insert. rewrite Hf. cbn [level_idx slot_idx].
  rewrite (proj2 (Z.leb_le _ _)) by lia.
  by rewrite (update_slot_found _ _ _ _ _ _ Hli Hs).
Qed.

Lemma insert_found_wf t q v len li idx sub s :
  wf t → levels t !! li = Some sub → slots sub !! idx = Some s →
  slot_matches s q = true →
  wf (set_levels t (num_levels t) (t_count t)
        (<[li := set_slots sub (<[idx := new_value v len s]> (slots sub))]>
           (levels t))) ∧
  ∃ R, live_entries t ≡ₚ (Some (c_str q), value s, value_len s) :: R ∧
       live_entries
         (set_levels t (num_levels t) (t_count t)
            (<[li := set_slots sub (<[idx := new_value v len s]> (slots sub))]>
               (levels t)))
       ≡ₚ (Some (c_str q), Some (take (Z.to_nat len) v), len) :: R.
Proof.
  intros Hwf Hli Hs Hm.
  destruct (matching_slot_entry _ _ _ _ _ _ Hwf Hli Hs Hm) as [Hocc He].
  pose proof (wf_lookup_level _ _ _ Hwf Hli) as Hsub.
  set (s' := new_value v len s).
  set (sub' := set_slots sub (<[idx := s']> (slots sub))).
  assert (Hocc' : state s' = SLOT_OCCUPIED) by done.
  assert (He' : slot_entry s' = (Some (c_str q), Some (take (Z.to_nat len) v), len)).
  { unfold slot_entry in *. simpl. congruence. }
  assert (Hsub' : wf_level sub').
  { eapply (wf_level_replace sub sub' idx s s'); try done.
    - rewrite Hocc'. done.
    - simpl. rewrite (n_state_insert _ _ _ _ _ Hs), Hocc, Hocc'.
      rewrite (wl_count _ Hsub). rewrite !decide_True by done. lia.
    - simpl. rewrite (n_state_insert _ _ _ _ _ Hs), Hocc, Hocc'.
      rewrite (wl_tombstones _ Hsub). rewrite !decide_False by done. lia.
    - intros _. destruct (wl_chain _ Hsub _ _ Hs Hocc) as (k & ? & ? & ?).
      exists k. done. }
  destruct (wf_replace_slot t li sub idx s s' sub' (t_count t))
    as (Hwf' & R & HR & HR'); try done.
  - simpl. lia.
  - intros R. rewrite !entries_of_one, !decide_True by done.
    by rewrite !fmap_app, !fmap_cons, He, He'.
  - split; [done|]. exists R.
    rewrite entries_of_one, decide_True in HR by done.
    rewrite entries_of_one, decide_True in HR' by done.
    rewrite He in HR. rewrite He' in HR'. done.
Qed.

Lemma eht_delete_found t q li idx sub s :
  wf t →
  find_key t q = {| level_idx := Z.of_nat li; slot_idx := Z.of_nat idx |} →
  levels t !! li = Some sub → slots sub !! idx = Some s →
  slot_matches s q = true →
  eht_delete t q =
  (set_levels t (num_levels t) (t_count t - 1)
     (<[li := deleted_level sub idx]> (levels t)), 1) ∧
  wf (set_levels t (num_levels t) (t_count t - 1)
        (<[li := deleted_level sub idx]> (levels t))) ∧
  live_entries t ≡ₚ
    (Some (c_str q), value s, value_len s) ::
    live_entries (set_levels t (num_levels t) (t_count t - 1)
                    (<[li := deleted_level sub idx]> (levels t))).
Proof.
  intros Hwf Hf Hli Hs Hm.
  destruct (matching_slot_entry _ _ _ _ _ _ Hwf Hli Hs Hm) as [Hocc He].
  pose proof (wf_lookup_level _ _ _ Hwf Hli) as Hsub.
  pose proof (wf_level_used _ Hsub) as Hu.
  pose proof (n_state_pos _ _ _ _ Hs Hocc) as Hpos.
  rewrite <- (wl_count _ Hsub) in Hpos.
  set (s' := {| key := None; value := None; value_len := 0; state := SLOT_TOMBSTONE |}).
  assert (Hsub' : wf_level (deleted_level sub idx)).
  { eapply (wf_level_replace sub _ idx s s'); try done.
    - simpl. rewrite (n_state_insert _ _ _ _ _ Hs), Hocc.
      rewrite (wl_count _ Hsub). rewrite decide_True, decide_False by done. lia.
    - simpl. rewrite (n_state_insert _ _ _ _ _ Hs), Hocc.
      rewrite (wl_tombstones _ Hsub). rewrite decide_False, decide_True by done. lia. }
  destruct (wf_replace_slot t li sub idx s s' (deleted_level sub idx) (t_count t - 1))
    as (Hwf' & R & HR & HR'); try done.
  { simpl. lia. }
  { intros R. rewrite !entries_of_one, decide_True, decide_False by done.
    rewrite fmap_app, fmap_cons. simpl. by intros [_ ?]%NoDup_cons. }
  rewrite entries_of_one, decide_True in HR by done.
  rewrite entries_of_one, decide_False in HR' by done.
  simpl in HR'. rewrite He in HR.
  split; [|split; [done|by rewrite HR, HR']].
  unfold eht_delete. rewrite Hf. cbn [level_idx slot_idx].
  rewrite (proj2 (Z.ltb_ge _ _)) by lia. rewrite !Nat2Z.id.
  rewrite (alter_as_insert _ _ _ _ Hli), (alter_as_insert _ _ _ _ Hs).
  assert (Hc : 0 < t_count t).
  { rewrite (wf_count_entries _ Hwf), HR. simpl. lia. }
  pose proof (sum_of_count_bounds _ (wf_levels _ Hwf)) as Hb.
  rewrite <- (wf_count _ Hwf), wf_total_capacity in Hb by done.
  pose proof (wf_cap _ Hwf).
  unfold deleted_level, tombstone_slot.
  rewrite !wrap64_small by lia. done.
Qed.

Lemma eht_delete_absent t q :
  level_idx (find_key t q) < 0 → eht_delete t q = (t, 0).
Proof. intros H. unfold eht_delete. by rewrite (proj2 (Z.ltb_lt _ _)). Qed.

Lemma eht_delete_wf t q : wf t → wf (eht_delete t q).1.
Proof.
  intros Hwf.
  destruct (Z.ltb_spec (level_idx (find_key t q)) 0) as [Hlt|Hge].
  - by rewrite eht_delete_absent.
  - destruct (find_key_slot_idx t q Hwf Hge) as (li & idx & sub & s & Hf & Hli & Hs & Hm).
    destruct (eht_delete_found _ _ _ _ _ _ Hwf Hf Hli Hs Hm) as (-> & ? & _). done.
Qed.

(** ** Insert *)

Lemma not_stored_fresh t q :
  wf t → stores_key t q = false → fresh_key t (c_str q).
Proof.
  intros Hwf Hs v len Hin.
  assert (stores_key t q = true); [|congruence].
  apply stores_key_live_entries; eauto.
Qed.

Lemma eht_insert_absent fuel t q v len t' :
  wf t → stores_key t q = false →
  eht_insert fuel t q v len = Some t' →
  wf t' ∧ live_entries t' ≡ₚ stored_entry q v len :: live_entries t ∧
  total_capacity t ≤ total_capacity t' ∧ same_config t t' ∧
  (load_limit t ≤ t_count t → 2 * total_capacity t ≤ total_capacity t').
Proof.
  intros Hwf Hs. unfold eht_insert.
  assert (Hlt : ¬ 0 ≤ level_idx (find_key t q)).
  { rewrite find_key_found_iff by done. congruence. }
  rewrite (proj2 (Z.leb_gt _ _)) by lia.
  pose proof (wf_cap _ Hwf) as Hcap.
  destruct (if load_limit t <=? t_count t then _ else _) as [t1|] eqn:H1; [|done].
  simpl.
  assert (wf t1 ∧ live_entries t1 ≡ₚ live_entries t ∧
          total_capacity t ≤ total_capacity t1 ∧ same_config t t1 ∧
          (load_limit t ≤ t_count t → 2 * total_capacity t ≤ total_capacity t1))
    as (Hwf1 & Hp1 & Hc1 & Hs1 & Hl1).
  { destruct (Z.leb_spec (load_limit t) (t_count t)).
    - rewrite wrap64_small in H1 by lia.
      apply rebuild_ok in H1 as (? & ? & ? & ?); [|done|lia].
      split_and!; try done; lia.
    - injection H1 as <-. split_and!; try done; try lia. }
  destruct (if tombstone_limit t1 <=? total_tombstones t1 then _ else _)
    as [t2|] eqn:H2; [|done].
  simpl.
  assert (wf t2 ∧ live_entries t2 ≡ₚ live_entries t1 ∧
          total_capacity t1 ≤ total_capacity t2 ∧ same_config t1 t2)
    as (Hwf2 & Hp2 & Hc2 & Hs2).
  { destruct (tombstone_limit t1 <=? total_tombstones t1).
    - apply rebuild_ok in H2 as (? & ? & ? & ?); [done|done|].
      pose proof (wf_cap _ Hwf1). lia.
    - injection H2 as <-. split_and!; try done; try lia. }
  intros Hi. apply insert_owned_ok in Hi as (Hwf' & Hp' & Hc' & Hs').
  - split; [done|]. split; [by rewrite Hp', Hp2, Hp1|].
    split; [lia|]. split; [|lia].
    eapply same_config_trans; [|done]. by eapply same_config_trans.
  - done.
  - apply c_str_idemp.
  - apply (fresh_key_perm t); [by rewrite Hp2, Hp1|by apply not_stored_fresh].
Qed.

Lemma eht_insert_present fuel t q v len t' :
  wf t → stores_key t q = true →
  eht_insert fuel t q v len = Some t' →
  wf t' ∧ total_capacity t' = total_capacity t ∧ same_config t t' ∧
  ∃ v0 len0 R,
    live_entries t ≡ₚ (Some (c_str q), v0, len0) :: R ∧
    live_entries t' ≡ₚ stored_entry q v len :: R.
Proof.
  intros Hwf Hs%find_key_found_iff; [|done].
  destruct (find_key_slot_idx t q Hwf Hs) as (li & idx & sub & s & Hf & Hli & Hsl & Hm).
  rewrite (eht_insert_found _ _ _ _ _ _ _ _ _ Hf Hli Hsl). intros [= <-].
  destruct (insert_found_wf t q v len li idx sub s Hwf Hli Hsl Hm)
    as (Hwf' & R & HR & HR').
  split; [done|]. split; [done|]. split; [done|]. eauto.
Qed.

Lemma eht_insert_wf fuel t q v len t' :
  wf t → eht_insert fuel t q v len = Some t' →
  wf t' ∧ stored_entry q v len ∈ live_entries t' ∧
  total_capacity t ≤ total_capacity t' ∧
  ∀ e, e ∈ live_entries t → e.1.1 ≠ Some (c_str q) → e ∈ live_entries t'.
Proof.
  intros Hwf Hi. destruct (stores_key t q) eqn:Hs.
  - apply eht_insert_present in Hi
      as (Hwf' & Hc & _ & v0 & len0 & R & HR & HR'); [|done..].
    split; [done|]. split; [rewrite HR'; by left|]. split; [lia|].
    intros e He Hne. rewrite HR in He. rewrite HR'.
    apply elem_of_cons in He as [->|He]; [done|]. by right.
  - apply eht_insert_absent in Hi as (Hwf' & HR' & Hc & _); [|done..].
    split; [done|]. split; [rewrite HR'; by left|]. split; [done|].
    intros e He _. rewrite HR'. by right.
Qed.

(** ** Every reachable table satisfies the invariant *)

Lemma eht_create_wf n t : eht_create n = Some t → wf t ∧ live_entries t = [].
Proof.
  unfold eht_create. intros H.
  apply build_levels_wf in H as (? & ? & _); [done|simpl; lia| |done..].
  destruct (n <? 64) eqn:E; [lia|]. apply Z.ltb_ge in E. lia.
Qed.

Lemma reachable_wf t : reachable t → wf t.
Proof.
  induction 1 as [n t _ Hc|fuel t k v len t' _ IH _ Hi|t k _ IH|fuel t C t' _ IH HC Hr].
  - by apply eht_create_wf in Hc as [? _].
  - by apply eht_insert_wf in Hi as [? _].
  - by apply eht_delete_wf.
  - apply rebuild_ok in Hr as [? _]; [done|done|lia].
Qed.

(** ** The find procedure against its specification *)







(** ** The properties of the specification *)

Lemma update_counters t li sub idx s v len :
  levels t !! li = Some sub → slots sub !! idx = Some s →
  counters
    (set_levels t (num_levels t) (t_count t)
       (<[li := set_slots sub (<[idx := new_value v len s]> (slots sub))]>
          (levels t))) = counters t.
Proof.
  intros Hli Hs. unfold counters. simpl. f_equal.
  rewrite list_fmap_insert. apply list_insert_id.
  rewrite list_lookup_fmap, Hli. simpl. f_equal.
  unfold level_counters. simpl. f_equal.
  rewrite list_fmap_insert. symmetry. apply list_insert_id.
  by rewrite list_lookup_fmap, Hs.
Qed.

(** C1: in every reachable table, when [eht_insert] of key [k] and the
    first [value_len] bytes of the buffer [v] returns success, [eht_get]
    of [k] finds a value of length [value_len] whose bytes are those of
    [v], and [eht_contains] returns 1. *)
Theorem insert_then_get fuel t k v value_len t' :
  reachable t → 0 ≤ value_len ≤ Z.of_nat (length v) →
  eht_insert fuel t k v value_len = Some t' →
  ∃ bytes,
    eht_get t' k = Some (Some bytes, value_len) ∧
    Z.of_nat (length bytes) = value_len ∧
    bytes = take (Z.to_nat value_len) v ∧
    eht_contains t' k = 1.
Proof.
  intros Hwf%reachable_wf Hlen Hi.
  apply eht_insert_wf in Hi as (Hwf' & Hin & _); [|done].
  exists (take (Z.to_nat value_len) v).
  split; [by apply eht_get_spec|]. split; [rewrite length_take; lia|].
  split; [done|].
  apply eht_contains_iff, stores_key_live_entries; [done..|]. eauto.
Qed.

(** ** The end of an insertion *)















(** C3, as amended: after a successful [eht_insert] of [k] with [v1] in a
    reachable table, [eht_insert] of [k] with [v2] returns success, and
    then [eht_get] of [k] returns [v2]; the length of the table has grown
    by exactly 1 over the two inserts when [k] was not stored before them,
    and not at all when it was; the second insert writes the new value and
    its length into the slot that holds [k] and changes no count or
    capacity of the table or of a level, and no state or key of a slot. *)
Theorem insert_twice fuel1 fuel2 t k v1 len1 v2 len2 t1 :
  reachable t →
  eht_insert fuel1 t k v1 len1 = Some t1 →
  ∃ t2,
    eht_insert fuel2 t1 k v2 len2 = Some t2 ∧
    eht_get t2 k = Some (Some (take (Z.to_nat len2) v2), len2) ∧
    eht_len t2 = eht_len t + (if stores_key t k then 0 else 1) ∧
    counters t2 = counters t1 ∧
    ∃ li idx sub s,
      levels t1 !! li = Some sub ∧ slots sub !! idx = Some s ∧
      slot_matches s k = true ∧
      levels t2 =
        <[li := set_slots sub
                  (<[idx := {| key := key s;
                               value := Some (take (Z.to_nat len2) v2);
                               value_len := len2; state := state s |}]>
                     (slots sub))]> (levels t1).
Proof.
  intros Hwf%reachable_wf Hi1.
  assert (Hlen1 : eht_len t1 = eht_len t + (if stores_key t k then 0 else 1)).
  { unfold eht_len. destruct (stores_key t k) eqn:Hs.
    - apply eht_insert_present in Hi1 as (Hwf1 & _ & _ & v0 & l0 & R & HR & HR');
        [|done..].
      rewrite (wf_count_entries _ Hwf), (wf_count_entries _ Hwf1), HR, HR'.
      simpl. lia.
    - apply eht_insert_absent in Hi1 as (Hwf1 & HR & _); [|done..].
      rewrite (wf_count_entries _ Hwf), (wf_count_entries _ Hwf1), HR.
      simpl. lia. }
  apply eht_insert_wf in Hi1 as (Hwf1 & Hin1 & _); [|done].
  assert (Hs1 : stores_key t1 k = true).
  { apply stores_key_live_entries; [done|]. unfold stored_entry in Hin1. eauto. }
  pose proof Hs1 as Hge%find_key_found_iff; [|done].
  destruct (find_key_slot_idx t1 k Hwf1 Hge)
    as (li & idx & sub & s & Hf & Hli & Hsl & Hm).
  rewrite (eht_insert_found _ _ _ _ _ _ _ _ _ Hf Hli Hsl).
  destruct (insert_found_wf t1 k v2 len2 li idx sub s Hwf1 Hli Hsl Hm)
    as (Hwf2 & R & HR & HR').
  eexists. split; [done|]. split; [|split; [|split]].
  - apply eht_get_spec; [done|]. rewrite HR'. by left.
  - unfold eht_len in *. simpl. done.
  - by apply update_counters.
  - exists li, idx, sub, s. done.
Qed.

(** C4: in a reachable table that does not store [k], after a successful
    [eht_insert] of [k], [eht_delete] of [k] returns 1; then [eht_get]
    reports not found, [eht_contains] returns 0 and [eht_len] is what it
    was before the insert.  In every reachable table, [eht_delete] returns 1
    exactly when the key is stored and 0 otherwise; when it is stored,
    the slot that holds it loses its key and its value and becomes a
    tombstone, its level has one entry less and one tombstone more, and
    the table has one entry less. *)
Theorem insert_then_delete fuel t k v len t' :
  reachable t → stores_key t k = false →
  eht_insert fuel t k v len = Some t' →
  ((eht_delete t' k).2 = 1 ∧
   eht_get (eht_delete t' k).1 k = None ∧
   eht_contains (eht_delete t' k).1 k = 0 ∧
   eht_len (eht_delete t' k).1 = eht_len t) ∧
  ∀ t0 q, reachable t0 →
    ((eht_delete t0 q).2 = 1 ↔ stores_key t0 q = true) ∧
    ((eht_delete t0 q).2 = 0 ↔ stores_key t0 q = false) ∧
    (stores_key t0 q = true →
     ∃ li idx sub s,
       levels t0 !! li = Some sub ∧ slots sub !! idx = Some s ∧
       slot_matches s q = true ∧
       (eht_delete t0 q).1 =
         set_levels t0 (num_levels t0) (t_count t0 - 1)
           (<[li := {| level := level sub; capacity := capacity sub;
                       count := count sub - 1;
                       tombstones := tombstones sub + 1;
                       slots :=
                         <[idx := {| key := None; value := None;
                                     value_len := 0;
                                     state := SLOT_TOMBSTONE |}]>
                           (slots sub) |}]> (levels t0))).
Proof.
  intros Hwf%reachable_wf Hs Hi. split.
  - apply eht_insert_absent in Hi as (Hwf' & HR & _); [|done..].
    assert (Hs' : stores_key t' k = true).
    { apply stores_key_live_entries; [done|]. eexists _, _. rewrite HR. by left. }
    pose proof Hs' as Hge%find_key_found_iff; [|done].
    destruct (find_key_slot_idx t' k Hwf' Hge)
      as (li & idx & sub & s & Hf & Hli & Hsl & Hm).
    destruct (eht_delete_found _ _ _ _ _ _ Hwf' Hf Hli Hsl Hm) as (-> & Hwf2 & HR2).
    cbn [fst snd].
    assert (Hnk : stores_key
              (set_levels t' (num_levels t') (t_count t' - 1)
                 (<[li := deleted_level sub idx]> (levels t'))) k = false).
    { apply not_true_iff_false.
      intros (v0 & l0 & Hin)%stores_key_live_entries; [|done].
      pose proof (wf_keys _ Hwf') as Hnd.
      rewrite HR2, fmap_cons in Hnd. apply NoDup_cons in Hnd as [Hnotin _].
      apply Hnotin.
      by apply (list_elem_of_fmap_2 (fst ∘ fst) _ (Some (c_str k), v0, l0)). }
    split; [done|]. split; [by apply eht_get_None|].
    split; [by apply eht_contains_0|].
    unfold eht_len. rewrite (wf_count_entries _ Hwf2), (wf_count_entries _ Hwf).
    apply Permutation_length in HR2 as Hl2. apply Permutation_length in HR as Hl.
    simpl in Hl, Hl2. lia.
  - clear Hwf Hs Hi. intros t0 q Hwf%reachable_wf.
    destruct (stores_key t0 q) eqn:Hs.
    + pose proof Hs as Hge%find_key_found_iff; [|done].
      destruct (find_key_slot_idx t0 q Hwf Hge)
        as (li & idx & sub & s & Hf & Hli & Hsl & Hm).
      destruct (eht_delete_found _ _ _ _ _ _ Hwf Hf Hli Hsl Hm) as (-> & _ & _).
      cbn [fst snd]. split; [done|]. split; [done|].
      intros _. exists li, idx, sub, s. done.
    + assert (level_idx (find_key t0 q) < 0).
      { apply not_true_iff_false in Hs.
        rewrite <- find_key_found_iff in Hs by done. lia. }
      rewrite eht_delete_absent by done. done.
Qed.


(** C6, as amended: every table that [eht_create] and a sequence of
    operations that all succeed can produce has its live count equal to the
    sum of the counts of its levels, and its total capacity equal to the
    sum of their capacities. *)
Theorem reachable_sums t :
  reachable t →
  t_count t = sum_of count (levels t) ∧
  total_capacity t = sum_of capacity (levels t).
Proof.
  intros Hwf%reachable_wf. split; [apply Hwf|by rewrite wf_total_capacity].
Qed.

(** C7, as amended: in every reachable table, every level before the last
    has a capacity of at least [min_level_size], and the last level has a
    capacity of at most [2 * min_level_size]. *)
Theorem reachable_level_sizes t i sub :
  reachable t → levels t !! i = Some sub →
  if decide (S i = length (levels t))
  then capacity sub ≤ 2 * min_level_size t
  else min_level_size t ≤ capacity sub.
Proof.
  intros Hwf%reachable_wf Hi.
  pose proof (layout_ok_sizes _ _ _ (wf_layout _ Hwf) i (capacity sub)) as H.
  rewrite list_lookup_fmap, Hi, length_fmap in H. specialize (H eq_refl).
  case_decide; lia.
Qed.

(** C10: when no occupied slot of the table holds the key, [eht_delete]
    returns 0 and the table it leaves is the table it was given, in every
    field of the table, of its levels and of their slots. *)
Theorem delete_absent_unchanged t k :
  stores_key t k = false → eht_delete t k = (t, 0).
Proof.
  intros Hs. apply eht_delete_absent.
  destruct (find_key_cases t k) as [->|(li & sub & s & _ & Hli & Hsl & Hm)];
    [simpl; lia|].
  assert (stores_key t k = true); [|congruence].
  apply stores_key_true. eauto 10.
Qed.

End Proofs.

(** C8: for a minimum level size from 1 and a capacity [C] from 1 whose
    slots fit the address space (so for every capacity from the floor of
    64 that [eht_create] can allocate), [build_levels] succeeds, and the
    capacities of the levels it makes are those the loop of the
    specification emits: half of what remains while more than
    [2 * min_level_size] remains, then the rest; they add up to [C]. *)
Theorem build_levels_layout t C :
  1 ≤ min_level_size t < 2 ^ 63 → 0 < C → C * sizeof_Slot < 2 ^ 64 →
  ∃ t', build_levels t C = Some t' ∧
        spec_layout (min_level_size t) C = Some (capacity <$> levels t') ∧
        sum_of capacity (levels t') = C ∧
        num_levels t' = Z.of_nat (length (levels t')).
Proof.
  intros Hm HC Halloc.
  assert (Hsome : is_Some (build_levels t C)).
  { unfold build_levels. rewrite wrap64_small by lia.
    destruct (count_levels_total (Z.to_nat C) C (min_level_size t * 2) 0)
      as [n Hn]; [lia|lia|]. rewrite Hn. simpl.
    apply count_levels_halvings in Hn as (j & -> & Hj).
    replace (Z.to_nat (0 + Z.of_nat j + 1 - 1)) with j by lia.
    destruct (init_levels_total _ _ 0 _ Hj) as [ls Hls]; [lia|done|].
    rewrite Hls. done. }
  destruct Hsome as [t' Ht']. exists t'. split; [done|].
  pose proof Ht' as Ht''.
  unfold build_levels in Ht''. rewrite wrap64_small in Ht'' by lia.
  destruct (count_levels _ _ _ _) as [n|] eqn:Hn; [|done]. simpl in Ht''.
  apply count_levels_halvings in Hn as (j & -> & Hj).
  replace (Z.to_nat (0 + Z.of_nat j + 1 - 1)) with j in Ht'' by lia.
  destruct (init_levels j 0 C) as [ls|] eqn:Hls; [|done].
  injection Ht'' as <-. simpl.
  replace (min_level_size t * 2) with (2 * min_level_size t) in Hj by lia.
  pose proof (init_levels_layout _ _ _ _ _ Hj Hls) as Hlay.
  split; [|split].
  - apply layout_ok_spec_loop; [done|].
    assert (Hb : 1 ≤ 2 * min_level_size t) by lia.
    apply (layout_ok_length _ _ _ Hb Hlay).
  - rewrite <- sum_of_capacity. by eapply layout_ok_sum.
  - rewrite (init_levels_length _ _ _ _ Hls). lia.
Qed.

(** * Further properties of the source *)

(** ** Keys end at the first NUL *)

Lemma slot_matches_c_str s q q' :
  c_str q = c_str q' → slot_matches s q = slot_matches s q'.
Proof. intros H. unfold slot_matches, strcmp_eq. by rewrite H. Qed.

Lemma find_probe_c_str sub q q' h1 h2 n a :
  c_str q = c_str q' → find_probe sub q h1 h2 n a = find_probe sub q' h1 h2 n a.
Proof.
  intros H. revert a; induction n as [|n IH]; intros a; [done|].
  cbn [find_probe]. destruct (slots sub !! _) as [s|]; [|done].
  rewrite (slot_matches_c_str s q q' H). by rewrite IH.
Qed.

Lemma dual_hash_same q q' l : c_str q = c_str q' → dual_hash q l = dual_hash q' l.
Proof. intros H. by rewrite <- (dual_hash_c_str q), H, dual_hash_c_str. Qed.

Lemma build_levels_total t C :
  1 ≤ min_level_size t < 2 ^ 63 → 0 < C → C * sizeof_Slot < 2 ^ 64 →
  is_Some (build_levels t C).
Proof.
  intros Hm HC Halloc. unfold build_levels. rewrite wrap64_small by lia.
  destruct (count_levels_total (Z.to_nat C) C (min_level_size t * 2) 0)
    as [n Hn]; [lia|lia|]. rewrite Hn. simpl.
  apply count_levels_halvings in Hn as (j & -> & Hj).
  replace (Z.to_nat (0 + Z.of_nat j + 1 - 1)) with j by lia.
  destruct (init_levels_total _ _ 0 _ Hj) as [ls Hls]; [lia|done|].
  rewrite Hls. done.
Qed.

Lemma layout_two_levels bound r caps :
  layout_ok bound r caps → bound < r → (2 ≤ length caps)%nat.
Proof.
  destruct caps as [|c [|c' caps]]; simpl; [done|lia|lia].
Qed.

Lemma init_levels_index j i tmp ls n sub :
  init_levels j i tmp = Some ls → ls !! n = Some sub →
  level sub = i + Z.of_nat n.
Proof.
  revert i tmp ls n; induction j as [|j IH]; intros i tmp ls n H%init_levels_inv.
  - destruct H as (sa & [_ ->]%subarray_init_Some & ->).
    destruct n as [|n]; [|done]. intros [= <-]. simpl. lia.
  - destruct H as (sa & rest & [_ ->]%subarray_init_Some & H' & ->).
    destruct n as [|n]; [intros [= <-]; simpl; lia|].
    simpl. intros Hn. rewrite (IH _ _ _ _ H' Hn). lia.
Qed.

Lemma iter_scan_spec sub n si :
  (Z.to_nat si + n = length (slots sub))%nat → 0 ≤ si →
  match iter_scan sub n si with
  | None => entries_of (drop (Z.to_nat si) (slots sub)) = []
  | Some (s, si') =>
      si < si' ≤ Z.of_nat (length (slots sub)) ∧
      entries_of (drop (Z.to_nat si) (slots sub)) =
      slot_entry s :: entries_of (drop (Z.to_nat si') (slots sub))
  end.
Proof.
  revert si; induction n as [|n IH]; intros si Hn Hsi.
  - simpl. by rewrite drop_ge by lia.
  - cbn [iter_scan].
    destruct (lookup_lt_is_Some_2 (slots sub) (Z.to_nat si)) as [s Hs]; [lia|].
    rewrite Hs, (drop_S _ _ _ Hs).
    change (s :: drop (S (Z.to_nat si)) (slots sub))
      with ([s] ++ drop (S (Z.to_nat si)) (slots sub)).
    rewrite entries_of_app, entries_of_one.
    replace (S (Z.to_nat si)) with (Z.to_nat (si + 1)) by lia.
    case_bool_decide as Hocc.
    + rewrite decide_True by done. split; [lia|done].
    + rewrite decide_False by done. simpl.
      specialize (IH (si + 1) ltac:(lia) ltac:(lia)).
      destruct (iter_scan sub n (si + 1)) as [[s' si']|]; [|done].
      destruct IH as [? ?]. split; [lia|done].
Qed.

Lemma level_stats_loop_lookup t out n i j :
  (i + n ≤ length (levels t))%nat → (i + n ≤ length out)%nat →
  level_stats_loop t out n i !! j =
  if decide (i ≤ j < i + n)%nat then level_info <$> levels t !! j else out !! j.
Proof.
  revert out i; induction n as [|n IH]; intros out i Hl Ho.
  - simpl. rewrite decide_False by lia. done.
  - cbn [level_stats_loop].
    destruct (lookup_lt_is_Some_2 (levels t) i) as [sub Hsub]; [lia|].
    rewrite Hsub, IH by (rewrite ?length_insert; lia).
    destruct (decide (i = j)) as [<-|Hne].
    + rewrite decide_False, decide_True by lia.
      rewrite list_lookup_insert_eq by lia. by rewrite Hsub.
    + rewrite list_lookup_insert_ne by done.
      repeat case_decide; try lia; done.
Qed.

Lemma level_stats_loop_length t out n i :
  length (level_stats_loop t out n i) = length out.
Proof.
  revert out i; induction n as [|n IH]; intros out i; [done|].
  cbn [level_stats_loop]. destruct (levels t !! i); [|done].
  by rewrite IH, length_insert.
Qed.

Lemma total_tombstones_zero (ls : list SubArray) :
  Forall (λ sub, tombstones sub = 0) ls →
  foldl (λ total_ts sub, wrap64 (total_ts + tombstones sub)) 0 ls = 0.
Proof.
  induction 1 as [|sub ls Hsub _ IH]; [done|]. simpl. by rewrite Hsub.
Qed.

Section Extras.

Context {FB : FloatBudget}.

Hypothesis budget_mono :
  ∀ c u u', 0 ≤ u → u ≤ u' → u' ≤ c → budget_of u c ≤ budget_of u' c.

(** The lemmas about tables, at the budget of this section. *)
Local Abbreviation reachable_wf := (reachable_wf budget_mono).
Local Abbreviation eht_insert_present := (eht_insert_present budget_mono).
Local Abbreviation eht_insert_absent := (eht_insert_absent budget_mono).
Local Abbreviation eht_insert_wf := (eht_insert_wf budget_mono).
Local Abbreviation eht_delete_found := (eht_delete_found budget_mono).
Local Abbreviation eht_delete_wf := (eht_delete_wf budget_mono).
Local Abbreviation insert_found_wf := (insert_found_wf budget_mono).
Local Abbreviation insert_owned_ok := (insert_owned_ok budget_mono).
Local Abbreviation rebuild_ok := (rebuild_ok budget_mono).
Local Abbreviation place_wf := (place_wf budget_mono).
Local Abbreviation place_probe_wf := (place_probe_wf budget_mono).

Lemma find_from_c_str t q q' n li :
  c_str q = c_str q' → find_from t q n li = find_from t q' n li.
Proof.
  intros H. revert li; induction n as [|n IH]; intros li; [done|].
  cbn [find_from]. destruct (levels t !! li) as [sub|]; [|done].
  rewrite (dual_hash_same q q' _ H).
  destruct (dual_hash q' (level sub)) as [h1 h2].
  rewrite (find_probe_c_str _ q q' _ _ _ _ H). by rewrite !IH.
Qed.

(** X1: the operations read a key up to its first NUL byte only: two key
    buffers with the same bytes before the first NUL give the same result
    in [find_key], [eht_get], [eht_contains], [eht_delete] and
    [eht_insert], on every table. *)
Theorem key_ends_at_first_nul fuel t q q' v len :
  c_str q = c_str q' →
  find_key t q = find_key t q' ∧
  eht_get t q = eht_get t q' ∧
  eht_contains t q = eht_contains t q' ∧
  eht_delete t q = eht_delete t q' ∧
  eht_insert fuel t q v len = eht_insert fuel t q' v len.
Proof.
  intros H.
  assert (Hf : find_key t q = find_key t q') by (by apply find_from_c_str).
  unfold eht_get, eht_contains, eht_delete, eht_insert.
  rewrite Hf, H. done.
Qed.

(** X2: on every table, [find_key] returns the sentinel [(-1, 0)] or the
    position of a slot inside the table that is occupied and whose key
    equals the query; it never returns an empty slot, a tombstone or
    another key. *)
Theorem find_key_sound t k :
  find_key t k = not_found ∨
  ∃ li sub s,
    level_idx (find_key t k) = Z.of_nat li ∧
    levels t !! li = Some sub ∧
    slots sub !! Z.to_nat (slot_idx (find_key t k)) = Some s ∧
    state s = SLOT_OCCUPIED ∧
    ∃ k', key s = Some k' ∧ c_str k' = c_str k.
Proof.
  destruct (find_key_cases t k) as [?|(li & sub & s & ? & ? & ? & Hm)]; [by left|].
  right. apply slot_matches_true in Hm as [? ?]. eauto 10.
Qed.


(** ** What insert and delete change *)

Lemma eht_get_entries_eq t t' q :
  wf t → wf t' →
  (∀ v l, (Some (c_str q), v, l) ∈ live_entries t' ↔
          (Some (c_str q), v, l) ∈ live_entries t) →
  eht_get t' q = eht_get t q.
Proof.
  intros Hwf Hwf' H. apply option_eq. intros [v l].
  by rewrite !eht_get_spec.
Qed.

Lemma other_key_perm (l l' R : list Entry) (e e' : Entry) k q v len :
  l ≡ₚ e :: R → l' ≡ₚ e' :: R → e.1.1 = Some k → e'.1.1 = Some k →
  q ≠ k → (Some q, v, len) ∈ l' ↔ (Some q, v, len) ∈ l.
Proof.
  intros -> -> He He' Hne. rewrite !elem_of_cons.
  split; (intros [Heq|?]; [|by right]); subst; simpl in *; congruence.
Qed.

(** X3: in a reachable table a successful [eht_insert] of [k] adds one
    to the length when [k] was not stored and nothing when it was, never
    lowers the capacity, and leaves the result of [eht_get] for every
    other key as it was. *)
Theorem insert_frame fuel t k v len t' :
  reachable t → eht_insert fuel t k v len = Some t' →
  eht_len t' = eht_len t + (if stores_key t k then 0 else 1) ∧
  eht_capacity t ≤ eht_capacity t' ∧
  ∀ q, c_str q ≠ c_str k → eht_get t' q = eht_get t q.
Proof.
  intros Hwf%reachable_wf Hi. unfold eht_len, eht_capacity.
  destruct (stores_key t k) eqn:Hs.
  - apply eht_insert_present in Hi as (Hwf' & Hc & _ & v0 & l0 & R & HR & HR');
      [|done..].
    split; [|split; [lia|]].
    + rewrite (wf_count_entries _ Hwf), (wf_count_entries _ Hwf'), HR, HR'.
      simpl. lia.
    + intros q Hq. apply eht_get_entries_eq; [done..|]. intros v' l'.
      by eapply other_key_perm.
  - apply eht_insert_absent in Hi as (Hwf' & HR & Hc & _); [|done..].
    split; [|split; [lia|]].
    + rewrite (wf_count_entries _ Hwf), (wf_count_entries _ Hwf'), HR.
      simpl. lia.
    + intros q Hq. apply eht_get_entries_eq; [done..|]. intros v' l'.
      rewrite HR, elem_of_cons. split; [|by right].
      intros [Heq|?]; [|done]. unfold stored_entry in Heq. congruence.
Qed.

(** X4: in a reachable table [eht_delete] of [k] leaves a table in which
    [k] is not found, the result of [eht_get] for every other key is as it
    was, the length is lower by the value returned (1 when [k] was stored,
    0 otherwise) and the capacity is the same; a second [eht_delete] of [k]
    returns 0 and changes nothing. *)
Theorem delete_frame t k :
  reachable t →
  eht_get (eht_delete t k).1 k = None ∧
  eht_contains (eht_delete t k).1 k = 0 ∧
  (∀ q, c_str q ≠ c_str k → eht_get (eht_delete t k).1 q = eht_get t q) ∧
  eht_len (eht_delete t k).1 = eht_len t - (eht_delete t k).2 ∧
  eht_capacity (eht_delete t k).1 = eht_capacity t ∧
  eht_delete (eht_delete t k).1 k = ((eht_delete t k).1, 0).
Proof.
  intros Hwf%reachable_wf. unfold eht_len, eht_capacity.
  destruct (stores_key t k) eqn:Hs.
  - pose proof Hs as Hge%find_key_found_iff; [|done].
    destruct (find_key_slot_idx t k Hwf Hge)
      as (li & idx & sub & s & Hf & Hli & Hsl & Hm).
    destruct (eht_delete_found _ _ _ _ _ _ Hwf Hf Hli Hsl Hm) as (-> & Hwf' & HR).
    cbn [fst snd].
    set (t' := set_levels t (num_levels t) (t_count t - 1)
                 (<[li := deleted_level sub idx]> (levels t))) in *.
    assert (Hnk : stores_key t' k = false).
    { apply not_true_iff_false.
      intros (v0 & l0 & Hin)%stores_key_live_entries; [|done].
      pose proof (wf_keys _ Hwf) as Hnd.
      rewrite HR, fmap_cons in Hnd. apply NoDup_cons in Hnd as [Hnotin _].
      apply Hnotin.
      by apply (list_elem_of_fmap_2 (fst ∘ fst) _ (Some (c_str k), v0, l0)). }
    split_and!; try done.
    + by apply eht_get_None.
    + by apply eht_contains_0.
    + intros q Hq. apply eht_get_entries_eq; [done..|]. intros v' l'.
      rewrite HR, elem_of_cons. split; [by right|].
      intros [Heq|?]; [congruence|done].
    + apply eht_delete_absent.
      apply not_true_iff_false in Hnk.
      rewrite <- find_key_found_iff in Hnk by done. lia.
  - assert (Hlt : level_idx (find_key t k) < 0).
    { apply not_true_iff_false in Hs.
      rewrite <- find_key_found_iff in Hs by done. lia. }
    rewrite (eht_delete_absent _ _ Hlt). cbn [fst snd].
    split_and!; try done; try lia.
    + by apply eht_get_None.
    + by apply eht_contains_0.
    + by apply eht_delete_absent.
Qed.

(** X5: every level of a reachable table has as many slots as its
    capacity says, a count equal to the number of its occupied slots and a
    tombstone count equal to the number of its tombstones, so that
    [count + tombstones <= capacity]; the table has as many levels as
    [num_levels] says and never more entries than slots. *)
Theorem reachable_level_counts t :
  reachable t →
  eht_num_levels t = Z.of_nat (length (levels t)) ∧
  0 ≤ eht_len t ≤ eht_capacity t ∧
  ∀ i sub, levels t !! i = Some sub →
    Z.of_nat (length (slots sub)) = capacity sub ∧
    count sub = n_state SLOT_OCCUPIED (slots sub) ∧
    tombstones sub = n_state SLOT_TOMBSTONE (slots sub) ∧
    0 ≤ count sub ∧ 0 ≤ tombstones sub ∧
    count sub + tombstones sub ≤ capacity sub.
Proof.
  intros Hwf%reachable_wf. split; [apply Hwf|]. split.
  - unfold eht_len, eht_capacity.
    pose proof (sum_of_count_bounds _ (wf_levels _ Hwf)) as Hb.
    by rewrite <- (wf_count _ Hwf), wf_total_capacity in Hb.
  - intros i sub Hi. pose proof (wf_lookup_level _ _ _ Hwf Hi) as Hsub.
    pose proof (wf_level_used _ Hsub).
    split_and!; try lia; apply Hsub.
Qed.

(** X6: the levels of a reachable table are always those that the level
    layout gives for its current total capacity and its minimum level
    size, also after any number of rebuilds. *)
Theorem reachable_layout t :
  reachable t →
  spec_layout (min_level_size t) (total_capacity t) =
  Some (capacity <$> levels t).
Proof.
  intros Hwf%reachable_wf.
  pose proof (wf_layout _ Hwf) as Hlay. pose proof (wf_min _ Hwf).
  apply layout_ok_spec_loop; [done|].
  assert (Hb : 1 ≤ 2 * min_level_size t) by lia.
  apply (layout_ok_length _ _ _ Hb Hlay).
Qed.

Lemma reachable_same_config t :
  reachable t →
  min_level_size t = 16 ∧ max_load t = 0x1.ccccccccccccdp-1%float ∧
  tombstone_ratio t = 0x1.3333333333333p-3%float.
Proof.
  induction 1 as [n t _ Hc|fuel t k v len t' Hr IH _ Hi|t k Hr IH|fuel t C t' Hr IH HC Hb].
  - unfold eht_create, build_levels in Hc.
    destruct (count_levels _ _ _ _); [|done]. simpl in Hc.
    destruct (init_levels _ _ _); [|done]. by injection Hc as <-.
  - apply reachable_wf in Hr.
    assert (same_config t t') as (-> & -> & ->); [|done].
    destruct (stores_key t k) eqn:Hs.
    + by apply eht_insert_present in Hi as (_ & _ & ? & _).
    + by apply eht_insert_absent in Hi as (_ & _ & _ & ? & _).
  - unfold eht_delete. by destruct (_ <? 0).
  - apply reachable_wf in Hr.
    apply rebuild_ok in Hb as (_ & _ & _ & (-> & -> & ->)); [done|done|lia].
Qed.

(** X7: the tunables of a reachable table are those [eht_create] sets:
    [min_level_size] is 16, [max_load] is the double 0.90 and
    [tombstone_ratio] the double 0.15; no operation changes them. *)
Theorem reachable_tunables t :
  reachable t →
  min_level_size t = 16 ∧
  max_load t = 0x1.ccccccccccccdp-1%float ∧
  tombstone_ratio t = 0x1.3333333333333p-3%float ∧
  load_limit t =
    size_t_of_double
      (PrimFloat.mul (double_of_size_t (eht_capacity t)) 0x1.ccccccccccccdp-1%float).
Proof.
  intros (Hm & Hl & Ht)%reachable_same_config.
  unfold load_limit, eht_capacity. by rewrite Hl.
Qed.


(** ** Creation *)

(** X8: for every requested capacity that [calloc] can serve, [eht_create]
    returns a table whose capacity is the request raised to at least 64,
    with at least two levels and no entry: its length is 0 and no key is
    found in it. *)
Theorem eht_create_spec n :
  0 ≤ n → Z.max n 64 * sizeof_Slot < 2 ^ 64 →
  ∃ t, eht_create n = Some t ∧
       eht_capacity t = Z.max n 64 ∧
       eht_len t = 0 ∧
       2 ≤ eht_num_levels t ∧
       ∀ k, eht_get t k = None ∧ eht_contains t k = 0.
Proof.
  intros Hn Halloc. unfold eht_create.
  assert ((if n <? 64 then 64 else n) = Z.max n 64) as ->
    by (destruct (Z.ltb_spec n 64); lia).
  set (t0 := {| total_capacity := Z.max n 64; t_count := 0; num_levels := 0;
                min_level_size := 16; max_load := _; tombstone_ratio := _;
                levels := [] |}).
  destruct (build_levels_total t0 (Z.max n 64)) as [t Ht]; [simpl; lia|lia|done|].
  exists t. split; [done|].
  apply build_levels_wf in Ht as (Hwf & Hlive & Hcap & Hcfg & _); [|simpl; lia|lia|done..].
  assert (Hnone : ∀ k, eht_get t k = None).
  { intros k. destruct (eht_get t k) as [[v l]|] eqn:Hg; [|done].
    apply eht_get_spec in Hg; [|done]. rewrite Hlive in Hg.
    by apply elem_of_nil in Hg. }
  split_and!.
  - done.
  - unfold eht_len. by rewrite (wf_count_entries _ Hwf), Hlive.
  - unfold eht_num_levels. rewrite (wf_num_levels _ Hwf).
    pose proof (wf_layout _ Hwf) as Hlay. rewrite Hcfg, Hcap in Hlay.
    apply layout_two_levels in Hlay; [|simpl; lia].
    rewrite length_fmap in Hlay. lia.
  - intros k. split; [done|].
    apply eht_contains_0; [done|]. by apply eht_get_None.
Qed.

(** ** Iteration *)

Lemma remaining_next_level t li :
  remaining t {| it_level_idx := Z.of_nat li + 1; it_slot_idx := 0 |} =
  drop (S li) (levels t) ≫= (λ sub, entries_of (slots sub)).
Proof.
  unfold remaining. cbn [it_level_idx it_slot_idx].
  replace (Z.to_nat (Z.of_nat li + 1)) with (S li) by lia.
  destruct (levels t !! S li) as [sub|] eqn:Hsub.
  - by rewrite (drop_S _ _ _ Hsub), bind_cons.
  - apply lookup_ge_None in Hsub. by rewrite drop_ge by lia.
Qed.

Lemma iter_from_spec t n li si :
  wf t → (li + n = length (levels t))%nat →
  valid_iterator t {| it_level_idx := Z.of_nat li; it_slot_idx := si |} →
  (iter_from t n (Z.of_nat li) si).1 =
    head (remaining t {| it_level_idx := Z.of_nat li; it_slot_idx := si |}) ∧
  remaining t (iter_from t n (Z.of_nat li) si).2 =
    tail (remaining t {| it_level_idx := Z.of_nat li; it_slot_idx := si |}) ∧
  valid_iterator t (iter_from t n (Z.of_nat li) si).2 ∧
  ((iter_from t n (Z.of_nat li) si).1 = None →
   Z.of_nat (length (levels t)) ≤ it_level_idx (iter_from t n (Z.of_nat li) si).2).
Proof.
  intros Hwf. revert li si; induction n as [|n IH]; intros li si Hn Hv.
  - cbn [iter_from fst snd]. unfold remaining. cbn [it_level_idx it_slot_idx].
    rewrite Nat2Z.id. rewrite (proj2 (lookup_ge_None _ _)) by lia.
    split_and!; try done. intros _. lia.
  - cbn [iter_from]. rewrite Nat2Z.id.
    destruct (lookup_lt_is_Some_2 (levels t) li) as [sub Hsub]; [lia|].
    rewrite Hsub.
    pose proof (wf_lookup_level _ _ _ Hwf Hsub) as Hsubwf.
    pose proof (wl_length _ Hsubwf) as Hlen. pose proof (wl_cap_pos _ Hsubwf).
    destruct Hv as (_ & Hsi & Hle). cbn [it_level_idx it_slot_idx] in *.
    rewrite Nat2Z.id in Hle. specialize (Hle _ Hsub).
    pose proof (iter_scan_spec sub (Z.to_nat (capacity sub - si)) si
                  ltac:(lia) Hsi) as Hscan.
    unfold remaining at 1 3. cbn [it_level_idx it_slot_idx].
    rewrite Nat2Z.id, Hsub.
    destruct (iter_scan sub _ si) as [[s si']|].
    + destruct Hscan as [Hsi' ->]. cbn [fst snd]. split; [done|]. split.
      * unfold remaining. cbn [it_level_idx it_slot_idx].
        by rewrite Nat2Z.id, Hsub.
      * split; [|done]. split; [simpl; lia|]. split; [simpl; lia|].
        cbn [it_level_idx it_slot_idx]. rewrite Nat2Z.id.
        intros sub' Hsub'. assert (sub' = sub) as -> by congruence. lia.
    + rewrite Hscan. cbn [app].
      replace (Z.of_nat li + 1) with (Z.of_nat (S li)) by lia.
      destruct (IH (S li) 0) as (H1 & H2 & H3 & H4); [lia| |].
      { split; [simpl; lia|]. split; [done|]. cbn [it_level_idx it_slot_idx].
        intros sub' Hsub'. rewrite Nat2Z.id in Hsub'.
        pose proof (wl_cap_pos _ (wf_lookup_level _ _ _ Hwf Hsub')). lia. }
      replace (Z.of_nat (S li)) with (Z.of_nat li + 1) in H1, H2, H3, H4 |- * by lia.
      rewrite remaining_next_level in H1, H2. done.
Qed.

Lemma eht_iter_next_spec t it :
  wf t → valid_iterator t it →
  (eht_iter_next t it).1 = head (remaining t it) ∧
  remaining t (eht_iter_next t it).2 = tail (remaining t it) ∧
  valid_iterator t (eht_iter_next t it).2 ∧
  ((eht_iter_next t it).1 = None →
   num_levels t ≤ it_level_idx (eht_iter_next t it).2).
Proof.
  intros Hwf Hv. destruct it as [li si]. unfold eht_iter_next.
  cbn [it_level_idx it_slot_idx].
  pose proof Hv as (Hli & _). cbn [it_level_idx] in Hli.
  destruct (decide (Z.to_nat li ≤ length (levels t))%nat) as [Hle|Hgt].
  - rewrite <- (Z2Nat.id li) by done. rewrite (wf_num_levels _ Hwf) at 5.
    apply iter_from_spec; [done| |].
    + rewrite (wf_num_levels _ Hwf). lia.
    + by rewrite Z2Nat.id.
  - replace (Z.to_nat (num_levels t - li)) with 0%nat
      by (rewrite (wf_num_levels _ Hwf); lia).
    cbn [iter_from fst snd]. unfold remaining. cbn [it_level_idx it_slot_idx].
    rewrite (proj2 (lookup_ge_None _ _)) by lia.
    split_and!; try done. intros _. rewrite (wf_num_levels _ Hwf). lia.
Qed.

Lemma iter_collect_spec t n it :
  wf t → valid_iterator t it →
  iter_collect t n it = take n (remaining t it).
Proof.
  intros Hwf. revert it; induction n as [|n IH]; intros it Hv; [done|].
  cbn [iter_collect].
  destruct (eht_iter_next_spec t it Hwf Hv) as (H1 & H2 & H3 & _).
  destruct (eht_iter_next t it) as [[e|] it']; cbn [fst snd] in *.
  - rewrite IH, H2 by done.
    destruct (remaining t it) as [|e' r]; simplify_eq/=. done.
  - by destruct (remaining t it).
Qed.

Lemma remaining_create t : wf t → remaining t (eht_iter_create t) = live_entries t.
Proof.
  intros Hwf. rewrite live_entries_wf by done. unfold remaining, eht_iter_create.
  cbn [it_level_idx it_slot_idx]. change (Z.to_nat 0) with 0%nat.
  destruct (levels t) as [|sub ls]; [done|]. simpl. by rewrite drop_0.
Qed.

(** X9: on a reachable table, [eht_len t] calls of [eht_iter_next] from a
    new iterator all return 1, and the call after them returns 0; the
    entries they yield have pairwise different keys, and they are exactly
    the keys and values that [eht_get] finds: one pass visits every live
    entry exactly once. *)
Theorem iteration_visits_each_entry_once t :
  reachable t →
  let es := iter_collect t (Z.to_nat (eht_len t)) (eht_iter_create t) in
  Z.of_nat (length es) = eht_len t ∧
  (∀ n, (Z.to_nat (eht_len t) ≤ n)%nat →
        iter_collect t n (eht_iter_create t) = es) ∧
  NoDup (fst ∘ fst <$> es) ∧
  ∀ k v len, (Some (c_str k), v, len) ∈ es ↔ eht_get t k = Some (v, len).
Proof.
  intros Hwf%reachable_wf es.
  assert (Hv : valid_iterator t (eht_iter_create t)).
  { split; [done|]. split; [done|]. intros sub Hsub. simpl.
    pose proof (wl_cap_pos _ (wf_lookup_level _ _ _ Hwf Hsub)). lia. }
  assert (Hes : es = live_entries t).
  { unfold es. rewrite iter_collect_spec, remaining_create by done.
    apply take_ge. unfold eht_len. rewrite (wf_count_entries _ Hwf). lia. }
  split_and!.
  - rewrite Hes. unfold eht_len. by rewrite (wf_count_entries _ Hwf).
  - intros n Hn. rewrite Hes, iter_collect_spec, remaining_create by done.
    apply take_ge. unfold eht_len in Hn. rewrite (wf_count_entries _ Hwf) in Hn. lia.
  - rewrite Hes. apply Hwf.
  - intros k v len. rewrite Hes. by rewrite eht_get_spec.
Qed.

(** X10: [eht_iter_next] on a reachable table, from any iterator
    position inside the table, never yields a slot that is not occupied:
    each entry it yields has a key, which holds no NUL byte, and is the
    entry that [eht_get] finds for that key, and the iterator it leaves is
    again inside the table; after it has returned 0 it returns 0 again and
    leaves the iterator where it is. *)
Theorem iter_next_result t it :
  reachable t → valid_iterator t it →
  match eht_iter_next t it with
  | (Some (ko, v, len), it') =>
      (∃ k, ko = Some k ∧ c_str k = k ∧ eht_get t k = Some (v, len)) ∧
      valid_iterator t it'
  | (None, it') => eht_iter_next t it' = (None, it')
  end.
Proof.
  intros Hwf%reachable_wf Hv.
  destruct (eht_iter_next_spec t it Hwf Hv) as (H1 & H2 & H3 & H4).
  destruct (eht_iter_next t it) as [[[[ko v] len]|] it'] eqn:Hn; cbn [fst snd] in *.
  - split; [|done].
    assert (Hin : (ko, v, len) ∈ live_entries t).
    { assert (Hsub : remaining t it ⊆ live_entries t).
      { rewrite live_entries_wf by done. unfold remaining.
        destruct (levels t !! Z.to_nat (it_level_idx it)) as [sub|] eqn:Hsub;
          [|apply list_subseteq_nil].
        intros e [He|He]%elem_of_app.
        - apply list_elem_of_bind. exists sub. split.
          + apply elem_of_entries_of in He as (i & s & Hi & ? & ?).
            apply elem_of_entries_of. rewrite lookup_drop in Hi. eauto.
          + by eapply list_elem_of_lookup_2.
        - apply list_elem_of_bind in He as (sub' & ? & Hin').
          apply list_elem_of_bind. exists sub'. split; [done|].
          apply list_elem_of_lookup in Hin' as [i Hi].
          rewrite lookup_drop in Hi. by eapply list_elem_of_lookup_2. }
      apply Hsub. destruct (remaining t it) as [|e r]; simplify_eq/=. by left. }
    pose proof (live_entries_normal t Hwf) as Hnorm.
    rewrite Forall_forall in Hnorm.
    destruct (Hnorm _ Hin) as (k & Hk & Hck). simpl in Hk. subst ko.
    exists k. split; [done|]. split; [done|].
    apply eht_get_spec; [done|]. by rewrite Hck.
  - specialize (H4 eq_refl). unfold eht_iter_next.
    replace (Z.to_nat (num_levels t - it_level_idx it')) with 0%nat by lia.
    by destruct it'.
Qed.

(** ** Level statistics *)

Lemma sum_level_info (f : SubArray → Z) (g : EHTLevelInfo → Z) ls :
  (∀ sub, g (level_info sub) = f sub) →
  foldr (λ i a, g i + a) 0 (level_info <$> ls) = sum_of f ls.
Proof.
  intros Hfg. induction ls as [|sub ls IH]; [done|].
  rewrite fmap_cons. unfold sum_of in *. cbn [foldr]. by rewrite IH, Hfg.
Qed.

(** X11: on a reachable table, [eht_level_stats] with a buffer of at
    least [n = min(num_levels, max_levels)] records writes the level index
    fields, capacities, counts and tombstone counts of the first [n] levels
    into the first [n] records and nothing else; when all levels are asked
    for, the counts it reports add up to [eht_len] and the capacities to
    [eht_capacity]. *)
Theorem level_stats_spec t out max_levels :
  reachable t → 0 ≤ max_levels →
  (Z.to_nat (Z.min (num_levels t) max_levels) ≤ length out)%nat →
  take (Z.to_nat (Z.min (num_levels t) max_levels))
       (eht_level_stats t out max_levels) =
    level_info <$> take (Z.to_nat (Z.min (num_levels t) max_levels)) (levels t) ∧
  drop (Z.to_nat (Z.min (num_levels t) max_levels))
       (eht_level_stats t out max_levels) =
    drop (Z.to_nat (Z.min (num_levels t) max_levels)) out ∧
  (num_levels t ≤ max_levels →
   foldr (λ i a, li_count i + a) 0
     (take (Z.to_nat (num_levels t)) (eht_level_stats t out max_levels)) =
     eht_len t ∧
   foldr (λ i a, li_capacity i + a) 0
     (take (Z.to_nat (num_levels t)) (eht_level_stats t out max_levels)) =
     eht_capacity t).
Proof.
  intros Hwf%reachable_wf Hmax Hout.
  pose proof (wf_num_levels _ Hwf) as Hnl.
  unfold eht_level_stats.
  assert ((if num_levels t <? max_levels then num_levels t else max_levels) =
          Z.min (num_levels t) max_levels) as ->
    by (destruct (Z.ltb_spec (num_levels t) max_levels); lia).
  set (n := Z.to_nat (Z.min (num_levels t) max_levels)) in *.
  assert (Hn : (n ≤ length (levels t))%nat) by lia.
  assert (Hlook : ∀ j, level_stats_loop t out n 0 !! j =
            if decide (j < n)%nat then level_info <$> levels t !! j else out !! j).
  { intros j. rewrite level_stats_loop_lookup by lia.
    repeat case_decide; try lia; done. }
  assert (Htake : take n (level_stats_loop t out n 0) = level_info <$> take n (levels t)).
  { apply list_eq. intros j. rewrite list_lookup_fmap.
    destruct (decide (j < n)%nat).
    - rewrite !lookup_take_lt, Hlook, decide_True by done. done.
    - rewrite !lookup_take_ge by lia. done. }
  split; [done|]. split.
  - apply list_eq. intros j. rewrite !lookup_drop, Hlook.
    by rewrite decide_False by lia.
  - intros Hall. assert (n = Z.to_nat (num_levels t)) as <- by lia.
    rewrite Htake, take_ge by lia.
    rewrite (sum_level_info count li_count), (sum_level_info capacity li_capacity) by done.
    unfold eht_len, eht_capacity.
    by rewrite (wf_count _ Hwf), wf_total_capacity.
Qed.

(** ** Properties that insertion and rebuild keep *)

Section keeps.

Variable I : ElasticHashTable → Prop.
Variable E : list byte → option (list byte) → Z → Prop.

Hypothesis I_place : ins_keeps I E place.
Hypothesis I_build :
  ∀ t C t1,
    1 ≤ min_level_size t < 2 ^ 63 → 0 < C → build_levels t C = Some t1 → I t1.
Hypothesis I_entries :
  ∀ t, wf t → I t → Forall (entry_ok E) (live_entries t).

Lemma reinsert_keeps ins es t t' :
  ins_ok ins → ins_keeps I E ins →
  wf t → Forall normal_entry es → Forall (entry_ok E) es →
  NoDup (fst ∘ fst <$> (es ++ live_entries t)) → I t →
  reinsert ins es t = Some t' → I t'.
Proof.
  intros Hins Hkeeps. revert t;
    induction es as [|[[ko v] len] es IH]; intros t Hwf Hn He Hnd HI.
  - by intros [= <-].
  - apply Forall_cons in Hn as [(k & Hko & Hk) Hn]. simpl in Hko. subst ko.
    apply Forall_cons in He as [He1 He].
    cbn [reinsert].
    destruct (ins t k v len) as [t1|] eqn:Hi; [|done]. simpl.
    rewrite <- app_comm_cons, fmap_cons in Hnd. apply NoDup_cons in Hnd as [Hnotin Hnd].
    assert (Hfresh : fresh_key t k).
    { intros v' len' Hin. apply Hnotin.
      apply (list_elem_of_fmap_2 (fst ∘ fst) _ (Some k, v', len')).
      apply elem_of_app. by right. }
    destruct (Hins _ _ _ _ _ Hwf Hk Hfresh Hi) as (Hwf1 & Hp1 & _).
    apply IH; try done.
    + rewrite Hp1, <- Permutation_middle, fmap_cons. apply NoDup_cons. done.
    + apply (Hkeeps t k v len t1); try done. by apply (He1 k).
Qed.

Lemma rebuild_with_keeps ins t C t' :
  ins_ok ins → ins_keeps I E ins →
  wf t → 0 < C → Forall (entry_ok E) (live_entries t) →
  rebuild_with ins t C = Some t' → I t'.
Proof.
  intros Hins Hkeeps Hwf HC He. unfold rebuild_with.
  destruct (build_levels _ C) as [t1|] eqn:Hb; [|done]. simpl.
  pose proof Hb as HI1%I_build; [|apply Hwf|done].
  apply build_levels_wf in Hb as (Hwf1 & Hl1 & _); [|apply Hwf|done|done|done].
  apply reinsert_keeps; try done.
  - by apply live_entries_normal.
  - rewrite Hl1, app_nil_r. apply Hwf.
Qed.

Lemma insert_owned_keeps fuel : ins_keeps I E (insert_owned fuel).
Proof.
  induction fuel as [|fuel IH]; intros t k v len t' Hwf Hk Hfresh HI HE; [done|].
  cbn [insert_owned].
  destruct (place t k v len) as [t1|] eqn:Hp.
  - intros [= <-]. by eapply I_place.
  - pose proof (wf_cap _ Hwf) as Hcap.
    rewrite wrap64_small by lia.
    destruct (rebuild_with _ t _) as [t1|] eqn:Hr; [|done]. simpl.
    pose proof Hr as HI1%rebuild_with_keeps;
      [|apply insert_owned_ok|done|done|lia|by apply I_entries].
    apply rebuild_with_spec in Hr as (Hwf1 & Hp1 & _);
      [|apply insert_owned_ok|done|lia].
    intros Hi. eapply IH; [| | | |done|done]; try done.
    by eapply fresh_key_perm.
Qed.

Lemma rebuild_keeps fuel t C t' :
  wf t → 0 < C → Forall (entry_ok E) (live_entries t) →
  rebuild fuel t C = Some t' → I t'.
Proof.
  intros Hwf HC He Hr.
  exact (rebuild_with_keeps _ _ _ _ (insert_owned_ok fuel)
           (insert_owned_keeps fuel) Hwf HC He Hr).
Qed.

(** With an update in place and a delete that keep [I] as well, every
    reachable table has it. *)
Hypothesis E_stored : ∀ k v len, E (c_str k) (Some (take (Z.to_nat len) v)) len.
Hypothesis I_update :
  ∀ t li idx sub s v len,
    I t → levels t !! li = Some sub → slots sub !! idx = Some s →
    state s = SLOT_OCCUPIED →
    I (set_levels t (num_levels t) (t_count t)
         (<[li := set_slots sub (<[idx := new_value v len s]> (slots sub))]>
            (levels t))).
Hypothesis I_delete :
  ∀ t li idx sub s,
    I t → levels t !! li = Some sub → slots sub !! idx = Some s →
    I (set_levels t (num_levels t) (t_count t - 1)
         (<[li := deleted_level sub idx]> (levels t))).

Lemma reachable_keeps t : reachable t → I t.
Proof.
  induction 1 as [n t _ Hc|fuel t k v len t' Hr IH _ Hi|t k Hr IH|fuel t C t' Hr IH HC Hb].
  - unfold eht_create in Hc. eapply I_build; [| |done]; simpl; [lia|].
    destruct (n <? 64) eqn:E'; [lia|]. apply Z.ltb_ge in E'. lia.
  - apply reachable_wf in Hr as Hwf.
    destruct (stores_key t k) eqn:Hs.
    + pose proof Hs as Hge%find_key_found_iff; [|done].
      destruct (find_key_slot_idx t k Hwf Hge)
        as (li & idx & sub & s & Hf & Hli & Hsl & Hm).
      rewrite (eht_insert_found _ _ _ _ _ _ _ _ _ Hf Hli Hsl) in Hi.
      injection Hi as <-. apply I_update; try done.
      by apply slot_matches_true in Hm as [? _].
    + revert Hi. unfold eht_insert.
      assert (Hlt : ¬ 0 ≤ level_idx (find_key t k)).
      { rewrite find_key_found_iff by done. congruence. }
      rewrite (proj2 (Z.leb_gt _ _)) by lia.
      pose proof (wf_cap _ Hwf) as Hcap.
      destruct (if load_limit t <=? t_count t then _ else _) as [t1|] eqn:H1; [|done].
      simpl.
      assert (wf t1 ∧ live_entries t1 ≡ₚ live_entries t ∧ I t1) as (Hwf1 & Hp1 & HI1).
      { destruct (load_limit t <=? t_count t).
        - rewrite wrap64_small in H1 by lia.
          pose proof H1 as ?%rebuild_keeps; [|done|lia|by apply I_entries].
          apply rebuild_ok in H1 as (? & ? & _); [done|done|lia].
        - by injection H1 as <-. }
      destruct (if tombstone_limit t1 <=? total_tombstones t1 then _ else _)
        as [t2|] eqn:H2; [|done].
      simpl.
      assert (wf t2 ∧ live_entries t2 ≡ₚ live_entries t1 ∧ I t2) as (Hwf2 & Hp2 & HI2).
      { pose proof (wf_cap _ Hwf1).
        destruct (tombstone_limit t1 <=? total_tombstones t1).
        - pose proof H2 as ?%rebuild_keeps; [|done|lia|by apply I_entries].
          apply rebuild_ok in H2 as (? & ? & _); [done|done|lia].
        - by injection H2 as <-. }
      intros Hi. eapply insert_owned_keeps; [| | | | |done]; try done.
      * apply c_str_idemp.
      * apply (fresh_key_perm t); [by rewrite Hp2, Hp1|by apply not_stored_fresh].
  - apply reachable_wf in Hr as Hwf.
    destruct (Z.ltb_spec (level_idx (find_key t k)) 0) as [Hlt|Hge].
    + by rewrite eht_delete_absent.
    + destruct (find_key_slot_idx t k Hwf Hge) as (li & idx & sub & s & Hf & Hli & Hs & Hm).
      destruct (eht_delete_found _ _ _ _ _ _ Hwf Hf Hli Hs Hm) as (-> & _ & _).
      by eapply I_delete.
  - apply reachable_wf in Hr as Hwf.
    eapply rebuild_keeps; [done| | |done]; [lia|by apply I_entries].
Qed.

End keeps.

(** ** Tombstones after a rebuild *)

Lemma entry_ok_True (es : list Entry) : Forall (entry_ok (λ _ _ _, True)) es.
Proof. apply Forall_forall. by intros e _ k _. Qed.

Lemma no_tombstones_place : ins_keeps no_tombstones (λ _ _ _, True) place.
Proof.
  intros t k v len t' Hwf Hk Hfresh HI _
    (li & sub & h1 & h2 & sub' & Hli & Hh & Hp & ->)%place_from_spec.
  unfold no_tombstones in *. simpl.
  apply Forall_insert; [done|].
  pose proof (Forall_lookup_1 _ _ _ _ HI Hli) as Ht. simpl in Ht.
  pose proof (wf_lookup_level _ _ _ Hwf Hli) as Hsub.
  apply (place_probe_spec _ _ _ _ _ _ _ 0%nat) in Hp
    as (a0 & s & _ & Hs & _ & _ & ->); [|done|intros; lia].
  simpl. case_bool_decide as Hst; [|done].
  pose proof (n_state_pos _ _ _ _ Hs Hst) as Hpos.
  rewrite <- (wl_tombstones _ Hsub) in Hpos. lia.
Qed.

Lemma no_tombstones_build t C t1 :
  1 ≤ min_level_size t < 2 ^ 63 → 0 < C →
  build_levels t C = Some t1 → no_tombstones t1.
Proof.
  intros Hm HC (ls & -> & _ & Hfresh & _)%build_levels_spec; [|done..].
  unfold no_tombstones. simpl. eapply Forall_impl; [done|].
  by intros sub (_ & _ & ? & _).
Qed.

Lemma rebuild_no_tombstones fuel t C t' :
  wf t → 0 < C → rebuild fuel t C = Some t' → no_tombstones t'.
Proof.
  intros Hwf HC.
  apply (rebuild_keeps no_tombstones (λ _ _ _, True)); try done.
  - apply no_tombstones_place.
  - apply no_tombstones_build.
  - intros; apply entry_ok_True.
  - apply entry_ok_True.
Qed.

Lemma no_tombstones_total t : no_tombstones t → total_tombstones t = 0.
Proof.
  intros H. unfold total_tombstones. apply total_tombstones_zero.
  by apply Forall_take.
Qed.

Lemma perm_eht_get t t' :
  wf t → wf t' → live_entries t' ≡ₚ live_entries t →
  ∀ q, eht_get t' q = eht_get t q.
Proof.
  intros Hwf Hwf' Hp q. apply eht_get_entries_eq; [done..|].
  intros v l. by rewrite Hp.
Qed.

(** X12: [rebuild] of a reachable table to a capacity [C > 0], when it
    succeeds, leaves no tombstone in any level, a capacity of at least [C],
    the same number of entries, and the same result of [eht_get] for every
    key. *)
Theorem rebuild_compacts fuel t C t' :
  reachable t → 0 < C → rebuild fuel t C = Some t' →
  Forall (λ sub, tombstones sub = 0) (levels t') ∧
  total_tombstones t' = 0 ∧
  C ≤ eht_capacity t' ∧
  eht_len t' = eht_len t ∧
  ∀ q, eht_get t' q = eht_get t q.
Proof.
  intros Hwf%reachable_wf HC Hr.
  pose proof (rebuild_no_tombstones _ _ _ _ Hwf HC Hr) as Hno.
  destruct (rebuild_ok _ _ _ _ Hwf HC Hr) as (Hwf' & Hp & Hcap & _).
  split_and!; [done|by apply no_tombstones_total|done| |by apply perm_eht_get].
  unfold eht_len.
  rewrite (wf_count_entries _ Hwf), (wf_count_entries _ Hwf').
  by rewrite (Permutation_length Hp).
Qed.

(** X13: an [eht_insert] of a key that a reachable table does not store,
    at which the load guard or the tombstone guard fires, leaves no
    tombstone in the table. *)
Theorem insert_compacts fuel t k v len t' :
  reachable t → stores_key t k = false →
  load_limit t ≤ t_count t ∨ tombstone_limit t ≤ total_tombstones t →
  eht_insert fuel t k v len = Some t' →
  total_tombstones t' = 0 ∧ Forall (λ sub, tombstones sub = 0) (levels t').
Proof.
  intros Hwf%reachable_wf Hs Hguard.
  assert (Hlt : ¬ 0 ≤ level_idx (find_key t k)).
  { rewrite find_key_found_iff by done. congruence. }
  unfold eht_insert. rewrite (proj2 (Z.leb_gt _ _)) by lia.
  pose proof (wf_cap _ Hwf) as Hcap.
  destruct (if load_limit t <=? t_count t then _ else _) as [t1|] eqn:H1; [|done].
  simpl.
  assert (wf t1 ∧ live_entries t1 ≡ₚ live_entries t ∧
          (no_tombstones t1 ∨ tombstone_limit t1 ≤ total_tombstones t1))
    as (Hwf1 & Hp1 & Hg1).
  { destruct (Z.leb_spec (load_limit t) (t_count t)).
    - rewrite wrap64_small in H1 by lia.
      pose proof H1 as ?%rebuild_no_tombstones; [|done|lia].
      apply rebuild_ok in H1 as (? & ? & _); [|done|lia]. auto.
    - injection H1 as <-. split; [done|]. split; [done|]. right. lia. }
  destruct (if tombstone_limit t1 <=? total_tombstones t1 then _ else _)
    as [t2|] eqn:H2; [|done].
  simpl.
  assert (wf t2 ∧ live_entries t2 ≡ₚ live_entries t1 ∧ no_tombstones t2)
    as (Hwf2 & Hp2 & Hno2).
  { pose proof (wf_cap _ Hwf1).
    destruct (Z.leb_spec (tombstone_limit t1) (total_tombstones t1)).
    - pose proof H2 as ?%rebuild_no_tombstones; [|done|lia].
      apply rebuild_ok in H2 as (? & ? & _); [done|done|lia].
    - injection H2 as <-. destruct Hg1; [done|lia]. }
  intros Hi.
  assert (Hno : no_tombstones t').
  { apply (insert_owned_keeps no_tombstones (λ _ _ _, True)
             no_tombstones_place no_tombstones_build
             (λ t _ _, entry_ok_True (live_entries t))
             fuel t2 (c_str k) (Some (take (Z.to_nat len) v)) len t');
      try done.
    - apply c_str_idemp.
    - apply (fresh_key_perm t); [by rewrite Hp2, Hp1|by apply not_stored_fresh]. }
  split; [by apply no_tombstones_total|done].
Qed.

(** ** The level numbers and the shape of the slots *)

Lemma levels_indexed_insert t n c li sub sub' :
  levels_indexed t → levels t !! li = Some sub → level sub' = level sub →
  levels_indexed (set_levels t n c (<[li := sub']> (levels t))).
Proof.
  intros HI Hli Hl i sub0. simpl.
  intros [(-> & <- & _)|[_ Hi]]%list_lookup_insert_Some.
  - rewrite Hl. by apply HI.
  - by apply HI.
Qed.

Lemma levels_indexed_build t C t1 :
  build_levels t C = Some t1 → levels_indexed t1.
Proof.
  unfold build_levels.
  destruct (count_levels _ _ _ _) as [n|]; [|done]. simpl.
  destruct (init_levels _ 0 C) as [ls|] eqn:Hls; [|done]. simpl.
  intros [= <-] i sub Hi. simpl in Hi.
  rewrite (init_levels_index _ _ _ _ _ _ Hls Hi). lia.
Qed.

Lemma levels_indexed_place : ins_keeps levels_indexed (λ _ _ _, True) place.
Proof.
  intros t k v len t' Hwf Hk Hfresh HI _
    (li & sub & h1 & h2 & sub' & Hli & Hh & Hp & ->)%place_from_spec.
  apply levels_indexed_insert with sub; [done..|].
  by apply (place_probe_spec _ _ _ _ _ _ _ 0%nat) in Hp
    as (a0 & s & _ & Hs & _ & _ & ->); [|done|intros; lia].
Qed.

(** X14: in a reachable table the [level] field of the level at index
    [i], which salts the two hashes of that level, is [i]. *)
Theorem reachable_levels_indexed t i sub :
  reachable t → levels t !! i = Some sub → level sub = Z.of_nat i.
Proof.
  intros Hr. revert i sub. change (levels_indexed t). revert t Hr.
  apply (reachable_keeps levels_indexed (λ _ _ _, True)).
  - apply levels_indexed_place.
  - intros t C t1 _ _. apply levels_indexed_build.
  - intros; apply entry_ok_True.
  - done.
  - intros t li idx sub s v len HI Hli _ _.
    by apply levels_indexed_insert with sub.
  - intros t li idx sub s HI Hli _.
    by apply levels_indexed_insert with sub.
Qed.

Lemma slots_shaped_insert t n c li sub sub' idx s s' :
  slots_shaped t → levels t !! li = Some sub → slots sub !! idx = Some s →
  slots sub' = <[idx := s']> (slots sub) → slot_shape s' →
  slots_shaped (set_levels t n c (<[li := sub']> (levels t))).
Proof.
  intros HI Hli Hs Hsl Hs'. unfold slots_shaped in *. simpl.
  apply Forall_insert; [done|]. rewrite Hsl.
  apply Forall_insert; [|done].
  by apply (Forall_lookup_1 _ _ _ _ HI Hli).
Qed.

Lemma slots_shaped_build t C t1 :
  1 ≤ min_level_size t < 2 ^ 63 → 0 < C →
  build_levels t C = Some t1 → slots_shaped t1.
Proof.
  intros Hm HC (ls & -> & _ & Hfresh & _)%build_levels_spec; [|done..].
  unfold slots_shaped. simpl. eapply Forall_impl; [done|].
  intros sub (_ & _ & _ & ->). by apply Forall_replicate.
Qed.

Lemma slots_shaped_place :
  ins_keeps slots_shaped (λ _ v len, 0 < len → is_Some v) place.
Proof.
  intros t k v len t' Hwf Hk Hfresh HI Hv
    (li & sub & h1 & h2 & sub' & Hli & Hh & Hp & ->)%place_from_spec.
  apply (place_probe_spec _ _ _ _ _ _ _ 0%nat) in Hp
    as (a0 & s & _ & Hs & _ & _ & ->); [|done|intros; lia].
  eapply slots_shaped_insert; [done..|].
  unfold slot_shape. simpl. split; [by eexists|done].
Qed.

Lemma slots_shaped_entries t :
  wf t → slots_shaped t →
  Forall (entry_ok (λ _ v len, 0 < len → is_Some v)) (live_entries t).
Proof.
  intros Hwf HI. apply Forall_forall. intros e.
  intros (li & sub & idx & s & Hli & Hs & Hocc & <-)%elem_of_live_entries; [|done].
  intros k _. simpl.
  pose proof (Forall_lookup_1 _ _ _ _ (Forall_lookup_1 _ _ _ _ HI Hli) Hs) as Hsh.
  unfold slot_shape in Hsh. rewrite decide_True in Hsh by done. apply Hsh.
Qed.

(** X15: in a reachable table every occupied slot holds a key, and a
    value as well when the length of its value is not 0 (for the length 0
    the source stores what [malloc(0)] returns, which may be NULL); every
    empty or tombstone slot holds no key, no value and the length 0.  So
    every [eht_get] that finds a value of positive length yields a value
    pointer that is not NULL. *)
Theorem reachable_slots_shaped t :
  reachable t →
  (∀ li sub idx s,
     levels t !! li = Some sub → slots sub !! idx = Some s →
     if decide (state s = SLOT_OCCUPIED)
     then is_Some (key s) ∧ (0 < value_len s → is_Some (value s))
     else key s = None ∧ value s = None ∧ value_len s = 0) ∧
  ∀ q v len, eht_get t q = Some (v, len) → 0 < len → is_Some v.
Proof.
  intros Hr.
  assert (HI : slots_shaped t).
  { revert t Hr.
    apply (reachable_keeps slots_shaped (λ _ v len, 0 < len → is_Some v)).
    - apply slots_shaped_place.
    - apply slots_shaped_build.
    - apply slots_shaped_entries.
    - intros k v len _. by eexists.
    - intros t li idx sub s v len HI Hli Hs Hocc.
      eapply slots_shaped_insert; [done..|].
      pose proof (Forall_lookup_1 _ _ _ _ (Forall_lookup_1 _ _ _ _ HI Hli) Hs) as Hsh.
      unfold slot_shape in *. simpl. rewrite decide_True in * by done.
      split; [apply Hsh|intros _; by eexists].
    - intros t li idx sub s HI Hli Hs.
      eapply slots_shaped_insert; [done..|]. done. }
  pose proof (reachable_wf _ Hr) as Hwf. split.
  - intros li sub idx s Hli Hs.
    apply (Forall_lookup_1 _ _ _ _ (Forall_lookup_1 _ _ _ _ HI Hli) Hs).
  - intros q v len Hg%eht_get_spec; [|done].
    pose proof (slots_shaped_entries _ Hwf HI) as He.
    rewrite Forall_forall in He. by apply (He _ Hg (c_str q)).
Qed.

End Extras.

(** * The properties on the example inputs *)

Lemma filter_length_mono {A} (P Q : A → Prop)
    `{!∀ x, Decision (P x)} `{!∀ x, Decision (Q x)} (l : list A) :
  (∀ x, P x → Q x) → (length (filter P l) ≤ length (filter Q l))%nat.
Proof.
  intros HPQ. induction l as [|x l IH]; [done|].
  rewrite !filter_cons. repeat case_decide; simpl; try lia.
  exfalso; eauto.
Qed.

Lemma tabulated_budget_mono c u u' :
  0 ≤ u → u ≤ u' → u' ≤ c →
  budget_of (FB := tabulated_budget) u c ≤ budget_of (FB := tabulated_budget) u' c.
Proof.
  intros H0 Hu Hc. unfold budget_of, budget_double, tabulated_budget.
  pose proof (length_filter (λ p, p * c ≤ u * 1000000) budget_steps) as Hl.
  pose proof (length_filter (λ p, p * c ≤ u' * 1000000) budget_steps) as Hl'.
  pose proof (filter_length_mono (λ p, p * c ≤ u * 1000000)
                (λ p, p * c ≤ u' * 1000000) budget_steps) as Hm.
  change (length budget_steps) with 61%nat in Hl, Hl'.
  destruct (Z.leb_spec c u), (Z.leb_spec c u'); try lia.
  - rewrite wrap64_small by lia. case_match; lia.
  - rewrite !wrap64_small by lia.
    assert (Himp : ∀ x : Z, x * c ≤ u * 1000000 → x * c ≤ u' * 1000000)
      by (intros; lia).
    specialize (Hm Himp). repeat case_match; lia.
Qed.

#[local] Existing Instance tabulated_budget.

(** The source on small inputs. *)

Example fnv1a_of_a :
  fnv1a_salted (list_byte_of_string "a") 0 = 0xaf63dc4c8601ec8c.
Proof. vm_compute. reflexivity. Qed.

Example key_ends_at_nul :
  dual_hash ("a"%byte :: x00 :: list_byte_of_string "bc") 1 =
  dual_hash (list_byte_of_string "a") 1.
Proof. vm_compute. reflexivity. Qed.

Example create_64 :
  eht_create 64 = Some table64 ∧ eht_create 0 = Some table64 ∧
  capacity <$> levels table64 = [32; 32] ∧
  load_limit table64 = 57 ∧ tombstone_limit table64 = 9.
Proof. vm_compute. repeat split; reflexivity. Qed.

Example create_1000 :
  (λ t, capacity <$> levels t) <$> eht_create 1000 =
  Some [500; 250; 125; 62; 31; 32].
Proof. vm_compute. reflexivity. Qed.

Example tables_57_58 :
  (eht_capacity table57, eht_len table57, count <$> levels table57) =
    (64, 57, [32; 25]) ∧
  (eht_capacity table58, eht_len table58, count <$> levels table58) =
    (128, 58, [57; 1; 0]) ∧
  eht_get table58 (example_key 0) = Some (Some value_1, 1) ∧
  eht_get table58 (example_key 58) = None.
Proof. vm_compute. repeat split; reflexivity. Qed.

Example delete_then_reuse :
  (λ t1, (count <$> levels t1, tombstones <$> levels t1))
    (eht_delete table_alpha key_alpha).1 = ([0; 0], [1; 0]) ∧
  (λ t2, (count <$> levels t2, tombstones <$> levels t2,
          eht_get t2 key_alpha)) <$>
    eht_insert 1 (eht_delete table_alpha key_alpha).1 key_alpha value_22 2 =
  Some ([1; 0], [0; 0], Some (Some value_22, 2)).
Proof. split; vm_compute; reflexivity. Qed.

Lemma reachable_insert_keys fuel ks v t t' :
  Z.of_nat (length v) < 2 ^ 64 →
  reachable t → insert_keys fuel ks v t = Some t' → reachable t'.
Proof.
  intros Hv. revert t; induction ks as [|k ks IH]; intros t Hr; simpl.
  - by intros [= <-].
  - destruct (eht_insert fuel t k v _) as [t1|] eqn:Hi; [|done]. simpl.
    apply IH. eapply reach_insert; [done| |done]. lia.
Qed.

Lemma table64_reachable : reachable table64.
Proof. apply (reach_create 64); [lia|vm_compute; reflexivity]. Qed.

Lemma table_alpha_reachable : reachable table_alpha.
Proof.
  apply (reach_insert 1 table64 key_alpha value_1 1);
    [apply table64_reachable|lia|vm_compute; reflexivity].
Qed.

Lemma table57_reachable : reachable table57.
Proof.
  apply (reachable_insert_keys 1 (example_key <$> seq 0 57) value_1 table64);
    [simpl; lia|apply table64_reachable|vm_compute; reflexivity].
Qed.

(** C1 on [table64] and the key ["alpha"]. *)
Lemma insert_then_get_witness :
  reachable table64 ∧
  0 ≤ 1 ≤ Z.of_nat (length value_1) ∧
  eht_insert 1 table64 key_alpha value_1 1 = Some table_alpha ∧
  ∃ bytes,
    eht_get table_alpha key_alpha = Some (Some bytes, 1) ∧
    Z.of_nat (length bytes) = 1 ∧
    bytes = take (Z.to_nat 1) value_1 ∧
    eht_contains table_alpha key_alpha = 1.
Proof.
  assert (Hi : eht_insert 1 table64 key_alpha value_1 1 = Some table_alpha)
    by (vm_compute; reflexivity).
  assert (Hl : 0 ≤ 1 ≤ Z.of_nat (length value_1)) by (simpl; lia).
  split; [apply table64_reachable|]. split; [exact Hl|]. split; [exact Hi|].
  exact (insert_then_get tabulated_budget_mono 1 table64 key_alpha value_1 1
           table_alpha table64_reachable Hl Hi).
Defined.


(** C3 as the specification states it fails on [table_alpha], which
    already stores ["alpha"]: after two more inserts of that key the length
    of the table is still 1, not 2. *)
Lemma insert_twice_len_counterexample :
  reachable table_alpha ∧
  eht_insert 1 table_alpha key_alpha value_22 2 = Some table_alpha_22 ∧
  eht_insert 1 table_alpha_22 key_alpha value_333 3 = Some table_alpha_333 ∧
  eht_len table_alpha = 1 ∧
  eht_len table_alpha_333 = 1 ∧
  eht_len table_alpha_333 ≠ eht_len table_alpha + 1.
Proof.
  split; [apply table_alpha_reachable|].
  split; [vm_compute; reflexivity|]. split; [vm_compute; reflexivity|].
  split; [vm_compute; reflexivity|]. split; [vm_compute; reflexivity|].
  vm_compute. discriminate.
Qed.

(** C3 as amended, on [table64] and the key ["alpha"]. *)
Lemma insert_twice_witness :
  reachable table64 ∧
  eht_insert 1 table64 key_alpha value_1 1 = Some table_alpha ∧
  ∃ t2,
    eht_insert 0 table_alpha key_alpha value_22 2 = Some t2 ∧
    eht_get t2 key_alpha = Some (Some (take (Z.to_nat 2) value_22), 2) ∧
    eht_len t2 =
      eht_len table64 + (if stores_key table64 key_alpha then 0 else 1) ∧
    counters t2 = counters table_alpha ∧
    ∃ li idx sub s,
      levels table_alpha !! li = Some sub ∧ slots sub !! idx = Some s ∧
      slot_matches s key_alpha = true ∧
      levels t2 =
        <[li := set_slots sub
                  (<[idx := {| key := key s;
                               value := Some (take (Z.to_nat 2) value_22);
                               value_len := 2; state := state s |}]>
                     (slots sub))]> (levels table_alpha).
Proof.
  assert (H1 : eht_insert 1 table64 key_alpha value_1 1 = Some table_alpha)
    by (vm_compute; reflexivity).
  split; [apply table64_reachable|]. split; [exact H1|].
  exact (insert_twice tabulated_budget_mono 1 0 table64 key_alpha value_1 1
           value_22 2 table_alpha table64_reachable H1).
Defined.

(** C4 on [table64] and the key ["alpha"]. *)
Lemma insert_then_delete_witness :
  reachable table64 ∧
  stores_key table64 key_alpha = false ∧
  eht_insert 1 table64 key_alpha value_1 1 = Some table_alpha ∧
  (eht_delete table_alpha key_alpha).2 = 1 ∧
  eht_get (eht_delete table_alpha key_alpha).1 key_alpha = None ∧
  eht_contains (eht_delete table_alpha key_alpha).1 key_alpha = 0 ∧
  eht_len (eht_delete table_alpha key_alpha).1 = eht_len table64.
Proof.
  assert (Hs : stores_key table64 key_alpha = false) by (vm_compute; reflexivity).
  assert (Hi : eht_insert 1 table64 key_alpha value_1 1 = Some table_alpha)
    by (vm_compute; reflexivity).
  split; [apply table64_reachable|]. split; [exact Hs|]. split; [exact Hi|].
  exact (proj1 (insert_then_delete tabulated_budget_mono 1 table64 key_alpha
                  value_1 1 table_alpha table64_reachable Hs Hi)).
Defined.


(** C6 as the specification states it fails on the table that an
    [eht_insert] into [table57] leaves when the level array of its rebuild
    is refused: the insert returns -1, and the table has the total capacity
    128 and no level. *)
Lemma refused_rebuild_sums_counterexample :
  reachable table57 ∧
  eht_insert_refused table57 (example_key 57) = Some table57_refused ∧
  (total_capacity table57_refused, t_count table57_refused,
   num_levels table57_refused, levels table57_refused) = (128, 0, 0, []) ∧
  sum_of capacity (levels table57_refused) = 0 ∧
  ¬ (t_count table57_refused = sum_of count (levels table57_refused) ∧
     total_capacity table57_refused =
       sum_of capacity (levels table57_refused)).
Proof.
  split; [apply table57_reachable|].
  split; [vm_compute; reflexivity|]. split; [vm_compute; reflexivity|].
  split; [vm_compute; reflexivity|].
  intros [_ H]. vm_compute in H. discriminate.
Qed.

(** C6 as amended, on [table57]. *)
Lemma reachable_sums_witness :
  reachable table57 ∧
  t_count table57 = sum_of count (levels table57) ∧
  total_capacity table57 = sum_of capacity (levels table57).
Proof.
  split; [apply table57_reachable|].
  exact (reachable_sums tabulated_budget_mono table57 table57_reachable).
Defined.

Lemma table65_reachable : reachable table65.
Proof. apply (reach_create 65); [lia|vm_compute; reflexivity]. Qed.

(** C7 as the specification states it fails on the table that
    [eht_create] makes for 65 slots: its levels hold 32, 16 and 17 slots,
    and the middle one, which is not the last, has only [min_level_size]
    slots, not [min_level_size + 1]. *)
Lemma level_size_counterexample :
  eht_create 65 = Some table65 ∧ reachable table65 ∧
  capacity <$> levels table65 = [32; 16; 17] ∧
  min_level_size table65 = 16 ∧
  ∃ sub, levels table65 !! 1%nat = Some sub ∧
         (2 < length (levels table65))%nat ∧
         ¬ min_level_size table65 + 1 ≤ capacity sub.
Proof.
  split; [vm_compute; reflexivity|]. split; [apply table65_reachable|].
  split; [vm_compute; reflexivity|]. split; [vm_compute; reflexivity|].
  eexists. split; [vm_compute; reflexivity|]. split; [vm_compute; lia|].
  vm_compute. intros H. apply H. reflexivity.
Qed.

(** C7 as amended, on the middle level of [table65]. *)
Lemma reachable_level_sizes_witness :
  reachable table65 ∧
  ∃ sub, levels table65 !! 1%nat = Some sub ∧
    if decide (2%nat = length (levels table65))
    then capacity sub ≤ 2 * min_level_size table65
    else min_level_size table65 ≤ capacity sub.
Proof.
  split; [apply table65_reachable|].
  eexists. split; [vm_compute; reflexivity|].
  refine (reachable_level_sizes tabulated_budget_mono table65 1%nat _
            table65_reachable _).
  vm_compute. reflexivity.
Defined.

(** C8 for the capacity 64 and the tunables of [table64]. *)
Lemma build_levels_layout_witness :
  1 ≤ min_level_size table64 < 2 ^ 63 ∧ 0 < 64 ∧ 64 * sizeof_Slot < 2 ^ 64 ∧
  ∃ t', build_levels table64 64 = Some t' ∧
        spec_layout (min_level_size table64) 64 = Some (capacity <$> levels t') ∧
        sum_of capacity (levels t') = 64 ∧
        num_levels t' = Z.of_nat (length (levels t')).
Proof.
  assert (Hm : 1 ≤ min_level_size table64 < 2 ^ 63) by (vm_compute; split; congruence).
  assert (HC : 0 < 64) by lia.
  assert (Ha : 64 * sizeof_Slot < 2 ^ 64) by (vm_compute; reflexivity).
  split; [exact Hm|]. split; [exact HC|]. split; [exact Ha|].
  exact (build_levels_layout table64 64 Hm HC Ha).
Defined.

(** C10 on [table57] and a key that it does not hold. *)
Lemma delete_absent_unchanged_witness :
  stores_key table57 (example_key 57) = false ∧
  eht_delete table57 (example_key 57) = (table57, 0).
Proof.
  assert (Hs : stores_key table57 (example_key 57) = false)
    by (vm_compute; reflexivity).
  split; [exact Hs|].
  exact (delete_absent_unchanged table57 (example_key 57) Hs).
Defined.

(** * The further properties on the example inputs *)

Lemma reachable_delete_keys ks t :
  reachable t → reachable (delete_keys ks t).
Proof.
  revert t; induction ks as [|k ks IH]; intros t Hr; [done|].
  apply IH. by apply reach_delete.
Qed.

Lemma table10_reachable : reachable table10.
Proof.
  apply (reachable_insert_keys 1 (example_key <$> seq 0 10) value_1 table64);
    [simpl; lia|apply table64_reachable|vm_compute; reflexivity].
Qed.

Lemma table_tombstones_reachable : reachable table_tombstones.
Proof.
  change table_tombstones with (delete_keys (example_key <$> seq 0 9) table10).
  apply reachable_delete_keys, table10_reachable.
Qed.

Example tables_with_tombstones :
  (eht_len table10, total_tombstones table10) = (10, 0) ∧
  (eht_len table_tombstones, total_tombstones table_tombstones,
   tombstone_limit table_tombstones) = (1, 9, 9) ∧
  (eht_len table_rebuilt, eht_capacity table_rebuilt) = (1, 64) ∧
  (eht_len table_compacted, eht_capacity table_compacted) = (2, 64).
Proof. vm_compute. repeat split; reflexivity. Qed.

(** X1 on [table_alpha] and the keys ["alpha"] and ["alpha\0xy"]. *)
Lemma key_ends_at_first_nul_witness :
  c_str key_alpha = c_str key_alpha_tail ∧
  find_key table_alpha key_alpha = find_key table_alpha key_alpha_tail ∧
  eht_get table_alpha key_alpha = eht_get table_alpha key_alpha_tail ∧
  eht_contains table_alpha key_alpha = eht_contains table_alpha key_alpha_tail ∧
  eht_delete table_alpha key_alpha = eht_delete table_alpha key_alpha_tail ∧
  eht_insert 1 table_alpha key_alpha value_22 2 =
    eht_insert 1 table_alpha key_alpha_tail value_22 2.
Proof.
  assert (Hk : c_str key_alpha = c_str key_alpha_tail) by reflexivity.
  split; [exact Hk|].
  exact (key_ends_at_first_nul 1 table_alpha key_alpha key_alpha_tail
           value_22 2 Hk).
Defined.

(** X3 on [table57] and the key ["key57"], whose insert rebuilds. *)
Lemma insert_frame_witness :
  reachable table57 ∧
  eht_insert 1 table57 (example_key 57) value_1 1 = Some table58 ∧
  eht_len table58 =
    eht_len table57 + (if stores_key table57 (example_key 57) then 0 else 1) ∧
  eht_capacity table57 ≤ eht_capacity table58 ∧
  ∀ q, c_str q ≠ c_str (example_key 57) → eht_get table58 q = eht_get table57 q.
Proof.
  assert (Hi : eht_insert 1 table57 (example_key 57) value_1 1 = Some table58)
    by (vm_compute; reflexivity).
  split; [apply table57_reachable|]. split; [exact Hi|].
  exact (insert_frame tabulated_budget_mono 1 table57 (example_key 57) value_1 1
           table58 table57_reachable Hi).
Defined.

(** X4 on [table_alpha] and its key. *)
Lemma delete_frame_witness :
  reachable table_alpha ∧
  eht_get (eht_delete table_alpha key_alpha).1 key_alpha = None ∧
  eht_contains (eht_delete table_alpha key_alpha).1 key_alpha = 0 ∧
  (∀ q, c_str q ≠ c_str key_alpha →
        eht_get (eht_delete table_alpha key_alpha).1 q = eht_get table_alpha q) ∧
  eht_len (eht_delete table_alpha key_alpha).1 =
    eht_len table_alpha - (eht_delete table_alpha key_alpha).2 ∧
  eht_capacity (eht_delete table_alpha key_alpha).1 = eht_capacity table_alpha ∧
  eht_delete (eht_delete table_alpha key_alpha).1 key_alpha =
    ((eht_delete table_alpha key_alpha).1, 0).
Proof.
  split; [apply table_alpha_reachable|].
  exact (delete_frame tabulated_budget_mono table_alpha key_alpha
           table_alpha_reachable).
Defined.

(** X5 on [table_tombstones]. *)
Lemma reachable_level_counts_witness :
  reachable table_tombstones ∧
  eht_num_levels table_tombstones = Z.of_nat (length (levels table_tombstones)) ∧
  0 ≤ eht_len table_tombstones ≤ eht_capacity table_tombstones ∧
  ∀ i sub,
    levels table_tombstones !! i = Some sub →
    Z.of_nat (length (slots sub)) = capacity sub ∧
    count sub = n_state SLOT_OCCUPIED (slots sub) ∧
    tombstones sub = n_state SLOT_TOMBSTONE (slots sub) ∧
    0 ≤ count sub ∧ 0 ≤ tombstones sub ∧
    count sub + tombstones sub ≤ capacity sub.
Proof.
  split; [apply table_tombstones_reachable|].
  exact (reachable_level_counts tabulated_budget_mono table_tombstones
           table_tombstones_reachable).
Defined.

(** X6 on [table58], which a rebuild has made. *)
Lemma reachable_layout_witness :
  reachable table58 ∧
  spec_layout (min_level_size table58) (total_capacity table58) =
    Some (capacity <$> levels table58).
Proof.
  assert (Hr : reachable table58).
  { apply (reach_insert 1 table57 (example_key 57) value_1 1);
      [apply table57_reachable|lia|vm_compute; reflexivity]. }
  split; [exact Hr|].
  exact (reachable_layout tabulated_budget_mono table58 Hr).
Defined.

(** X7 on [table57]. *)
Lemma reachable_tunables_witness :
  reachable table57 ∧
  min_level_size table57 = 16 ∧
  max_load table57 = 0x1.ccccccccccccdp-1%float ∧
  tombstone_ratio table57 = 0x1.3333333333333p-3%float ∧
  load_limit table57 =
    size_t_of_double
      (PrimFloat.mul (double_of_size_t (eht_capacity table57))
         0x1.ccccccccccccdp-1%float).
Proof.
  split; [apply table57_reachable|].
  exact (reachable_tunables tabulated_budget_mono table57 table57_reachable).
Defined.

(** X8 for 1000 slots. *)
Lemma eht_create_spec_witness :
  0 ≤ 1000 ∧ Z.max 1000 64 * sizeof_Slot < 2 ^ 64 ∧
  ∃ t, eht_create 1000 = Some t ∧
       eht_capacity t = Z.max 1000 64 ∧ eht_len t = 0 ∧
       2 ≤ eht_num_levels t ∧
       ∀ k, eht_get t k = None ∧ eht_contains t k = 0.
Proof.
  assert (H0 : 0 ≤ 1000) by lia.
  assert (H1 : Z.max 1000 64 * sizeof_Slot < 2 ^ 64) by (vm_compute; reflexivity).
  split; [exact H0|]. split; [exact H1|].
  exact (eht_create_spec 1000 H0 H1).
Defined.

(** X9 on [table57]. *)
Lemma iteration_visits_each_entry_once_witness :
  reachable table57 ∧
  let es := iter_collect table57 (Z.to_nat (eht_len table57))
              (eht_iter_create table57) in
  Z.of_nat (length es) = eht_len table57 ∧
  (∀ n, (Z.to_nat (eht_len table57) ≤ n)%nat →
        iter_collect table57 n (eht_iter_create table57) = es) ∧
  NoDup (fst ∘ fst <$> es) ∧
  ∀ k v len, (Some (c_str k), v, len) ∈ es ↔ eht_get table57 k = Some (v, len).
Proof.
  split; [apply table57_reachable|].
  exact (iteration_visits_each_entry_once tabulated_budget_mono table57
           table57_reachable).
Defined.

(** X10 on [table_alpha] and its fresh iterator. *)
Lemma iter_next_result_witness :
  reachable table_alpha ∧
  valid_iterator table_alpha (eht_iter_create table_alpha) ∧
  match eht_iter_next table_alpha (eht_iter_create table_alpha) with
  | (Some (ko, v, len), it') =>
      (∃ k, ko = Some k ∧ c_str k = k ∧ eht_get table_alpha k = Some (v, len)) ∧
      valid_iterator table_alpha it'
  | (None, it') => eht_iter_next table_alpha it' = (None, it')
  end.
Proof.
  assert (Hv : valid_iterator table_alpha (eht_iter_create table_alpha)).
  { split; [simpl; lia|]. split; [simpl; lia|].
    intros sub Hsub. vm_compute in Hsub. injection Hsub as <-.
    vm_compute. discriminate. }
  split; [apply table_alpha_reachable|]. split; [exact Hv|].
  exact (iter_next_result tabulated_budget_mono table_alpha
           (eht_iter_create table_alpha) table_alpha_reachable Hv).
Defined.

(** X11 on [table65], a buffer of four records and [max_levels = 2]. *)
Lemma level_stats_spec_witness :
  reachable table65 ∧ 0 ≤ 2 ∧
  (Z.to_nat (Z.min (num_levels table65) 2) ≤ length (replicate 4 no_info))%nat ∧
  take (Z.to_nat (Z.min (num_levels table65) 2))
       (eht_level_stats table65 (replicate 4 no_info) 2) =
    level_info <$> take (Z.to_nat (Z.min (num_levels table65) 2)) (levels table65) ∧
  drop (Z.to_nat (Z.min (num_levels table65) 2))
       (eht_level_stats table65 (replicate 4 no_info) 2) =
    drop (Z.to_nat (Z.min (num_levels table65) 2)) (replicate 4 no_info) ∧
  (num_levels table65 ≤ 2 →
   foldr (λ i a, li_count i + a) 0
     (take (Z.to_nat (num_levels table65))
        (eht_level_stats table65 (replicate 4 no_info) 2)) =
     eht_len table65 ∧
   foldr (λ i a, li_capacity i + a) 0
     (take (Z.to_nat (num_levels table65))
        (eht_level_stats table65 (replicate 4 no_info) 2)) =
     eht_capacity table65).
Proof.
  assert (H0 : 0 ≤ 2) by lia.
  assert (H1 : (Z.to_nat (Z.min (num_levels table65) 2) ≤
                length (replicate 4 no_info))%nat) by (vm_compute; lia).
  split; [apply table65_reachable|]. split; [exact H0|]. split; [exact H1|].
  exact (level_stats_spec tabulated_budget_mono table65 (replicate 4 no_info) 2
           table65_reachable H0 H1).
Defined.

(** X12 on [table_tombstones], which holds one entry and nine
    tombstones. *)
Lemma rebuild_compacts_witness :
  reachable table_tombstones ∧ 0 < 64 ∧
  rebuild 1 table_tombstones 64 = Some table_rebuilt ∧
  Forall (λ sub, tombstones sub = 0) (levels table_rebuilt) ∧
  total_tombstones table_rebuilt = 0 ∧
  64 ≤ eht_capacity table_rebuilt ∧
  eht_len table_rebuilt = eht_len table_tombstones ∧
  ∀ q, eht_get table_rebuilt q = eht_get table_tombstones q.
Proof.
  assert (HC : 0 < 64) by lia.
  assert (Hr : rebuild 1 table_tombstones 64 = Some table_rebuilt)
    by (vm_compute; reflexivity).
  split; [apply table_tombstones_reachable|]. split; [exact HC|].
  split; [exact Hr|].
  exact (rebuild_compacts tabulated_budget_mono 1 table_tombstones 64
           table_rebuilt table_tombstones_reachable HC Hr).
Defined.

(** X13 on [table_tombstones], whose nine tombstones reach its tombstone
    limit, and the key ["key20"]. *)
Lemma insert_compacts_witness :
  reachable table_tombstones ∧
  stores_key table_tombstones (example_key 20) = false ∧
  (load_limit table_tombstones ≤ t_count table_tombstones ∨
   tombstone_limit table_tombstones ≤ total_tombstones table_tombstones) ∧
  eht_insert 1 table_tombstones (example_key 20) value_1 1 =
    Some table_compacted ∧
  total_tombstones table_compacted = 0 ∧
  Forall (λ sub, tombstones sub = 0) (levels table_compacted).
Proof.
  assert (Hs : stores_key table_tombstones (example_key 20) = false)
    by (vm_compute; reflexivity).
  assert (Hg : load_limit table_tombstones ≤ t_count table_tombstones ∨
               tombstone_limit table_tombstones ≤ total_tombstones table_tombstones)
    by (right; vm_compute; discriminate).
  assert (Hi : eht_insert 1 table_tombstones (example_key 20) value_1 1 =
               Some table_compacted) by (vm_compute; reflexivity).
  split; [apply table_tombstones_reachable|]. split; [exact Hs|].
  split; [exact Hg|]. split; [exact Hi|].
  exact (insert_compacts tabulated_budget_mono 1 table_tombstones
           (example_key 20) value_1 1 table_compacted
           table_tombstones_reachable Hs Hg Hi).
Defined.

(** X14 on the last level of [table65]. *)
Lemma reachable_levels_indexed_witness :
  reachable table65 ∧
  ∃ sub, levels table65 !! 2%nat = Some sub ∧ level sub = Z.of_nat 2.
Proof.
  split; [apply table65_reachable|].
  eexists. split; [vm_compute; reflexivity|].
  refine (reachable_levels_indexed tabulated_budget_mono table65 2%nat _
            table65_reachable _).
  vm_compute. reflexivity.
Defined.

(** X15 on [table_tombstones]. *)
Lemma reachable_slots_shaped_witness :
  reachable table_tombstones ∧
  (∀ li sub idx s,
     levels table_tombstones !! li = Some sub → slots sub !! idx = Some s →
     if decide (state s = SLOT_OCCUPIED)
     then is_Some (key s) ∧ (0 < value_len s → is_Some (value s))
     else key s = None ∧ value s = None ∧ value_len s = 0) ∧
  ∀ q v len, eht_get table_tombstones q = Some (v, len) → 0 < len → is_Some v.
Proof.
  split; [apply table_tombstones_reachable|].
  exact (reachable_slots_shaped tabulated_budget_mono table_tombstones
           table_tombstones_reachable).
Defined.
